(** * PAUTA-JRT2.js: a shallow embedding of the scraping script's pure
    helpers (CSV, dates) and of its navigation loops, with their claims.

    Conventions of the embedding:
    - a JS string is the list of its UTF-16 code units ([jsstr]);
    - a JS [Date] is its local calendar date, a triple (year, month 1..12,
      day) as returned by [getFullYear], [getMonth() + 1], [getDate()];
      the time of day is carried unchanged by every Date operation the
      script uses ([setDate], [setMonth], copies), so comparisons between the
      script's dates are comparisons of their day numbers;
    - the page (Playwright) is an abstract world [W] with the observations
      and transitions each loop uses. *)

From Stdlib Require Import ZArith List Lia Bool String Ascii Sorted.
Import ListNotations.
Open Scope Z_scope.

(* ------------------------------------------------------------------ *)
(** ** JS strings *)

Definition jsstr := list Z.

(** String literal -> code units (ASCII / Latin-1 literals only). *)
Definition js (s : string) : jsstr :=
  map (fun a => Z.of_nat (nat_of_ascii a)) (list_ascii_of_string s).

Fixpoint str_eqb (a b : jsstr) : bool :=
  match a, b with
  | [], [] => true
  | x :: a', y :: b' => (x =? y) && str_eqb a' b'
  | _, _ => false
  end.

(** [String.prototype.startsWith] at position 0 and [includes]. *)
Fixpoint starts_with (s p : jsstr) : bool :=
  match p, s with
  | [], _ => true
  | c :: p', d :: s' => (c =? d) && starts_with s' p'
  | _ :: _, [] => false
  end.

Fixpoint includes (s p : jsstr) : bool :=
  starts_with s p || match s with [] => false | _ :: s' => includes s' p end.

(** WhiteSpace and LineTerminator code points removed by [trim]. *)
Definition is_js_ws (c : Z) : bool :=
  existsb (Z.eqb c)
    [9; 10; 11; 12; 13; 32; 160; 5760; 8192; 8193; 8194; 8195; 8196; 8197;
     8198; 8199; 8200; 8201; 8202; 8232; 8233; 8239; 8287; 12288; 65279].

Fixpoint trim_start (s : jsstr) : jsstr :=
  match s with
  | [] => []
  | c :: s' => if is_js_ws c then trim_start s' else s
  end.

Definition trim (s : jsstr) : jsstr := rev (trim_start (rev (trim_start s))).

(** [s.split(sep)] for a one-unit separator. *)
Fixpoint split_aux (sep : Z) (cur : jsstr) (s : jsstr) : list jsstr :=
  match s with
  | [] => [rev cur]
  | c :: s' => if c =? sep then rev cur :: split_aux sep [] s'
               else split_aux sep (c :: cur) s'
  end.

Definition split_on (sep : Z) (s : jsstr) : list jsstr := split_aux sep [] s.

(** [arr.join(sep)]. *)
Fixpoint join (sep : jsstr) (l : list jsstr) : jsstr :=
  match l with
  | [] => []
  | [x] => x
  | x :: l' => x ++ sep ++ join sep l'
  end.

(** [s.replace(/c/g, r)] for a one-unit pattern. *)
Fixpoint replace_all (c : Z) (r : jsstr) (s : jsstr) : jsstr :=
  match s with
  | [] => []
  | d :: s' => (if d =? c then r else [d]) ++ replace_all c r s'
  end.

(* ------------------------------------------------------------------ *)
(** ** Numbers and their decimal strings *)

Definition is_digit (c : Z) : bool := (48 <=? c) && (c <=? 57).

Fixpoint digits_value (acc : Z) (s : jsstr) : option Z :=
  match s with
  | [] => Some acc
  | c :: s' => if is_digit c then digits_value (acc * 10 + (c - 48)) s' else None
  end.

(** [Number(s)] on decimal integer notation: after trimming, the empty
    string is 0, an optionally signed digit string is its value; [None]
    stands for NaN (the hexadecimal, fractional and exponent notations,
    which no call site of the script can receive, are not modelled). *)
Definition js_Number (s : jsstr) : option Z :=
  match trim s with
  | [] => Some 0
  | 45 :: ((_ :: _) as ds) => option_map Z.opp (digits_value 0 ds)
  | 43 :: ((_ :: _) as ds) => digits_value 0 ds
  | ds => digits_value 0 ds
  end.

(** [String(n)] for an integer [n]: decimal digits, a leading [-]. *)
Fixpoint dec_fuel (fuel : nat) (n : Z) : jsstr :=
  match fuel with
  | O => []
  | S f => if n <? 10 then [48 + n] else dec_fuel f (n / 10) ++ [48 + n mod 10]
  end.

Definition dec (n : Z) : jsstr := dec_fuel (S (Z.to_nat n)) n.

Definition js_String (z : Z) : jsstr := if z <? 0 then 45 :: dec (- z) else dec z.

(** [s.padStart(2, '0')]. *)
Definition padStart2 (s : jsstr) : jsstr :=
  List.repeat 48 (2 - List.length s)%nat ++ s.

(* ------------------------------------------------------------------ *)
(** ** Dates *)

Definition is_leap (y : Z) : bool :=
  ((y mod 4 =? 0) && negb (y mod 100 =? 0)) || (y mod 400 =? 0).

Definition days_in_month (y m : Z) : Z :=
  if m =? 2 then (if is_leap y then 29 else 28)
  else if (m =? 4) || (m =? 6) || (m =? 9) || (m =? 11) then 30 else 31.

Record date := mkDate { year : Z; month : Z; day : Z }.

Definition valid_date (t : date) : Prop :=
  1 <= month t <= 12 /\ 1 <= day t <= days_in_month (year t) (month t).

Definition next_day (t : date) : date :=
  if day t <? days_in_month (year t) (month t) then mkDate (year t) (month t) (day t + 1)
  else if month t <? 12 then mkDate (year t) (month t + 1) 1
  else mkDate (year t + 1) 1 1.

Definition prev_day (t : date) : date :=
  if 1 <? day t then mkDate (year t) (month t) (day t - 1)
  else if 1 <? month t then
    mkDate (year t) (month t - 1) (days_in_month (year t) (month t - 1))
  else mkDate (year t - 1) 12 31.

Fixpoint iter_n {A} (n : nat) (f : A -> A) (x : A) : A :=
  match n with O => x | S n' => f (iter_n n' f x) end.

Definition add_days (t : date) (k : Z) : date :=
  if 0 <=? k then iter_n (Z.to_nat k) next_day t
  else iter_n (Z.to_nat (- k)) prev_day t.

(** ECMAScript [MakeDay(y, m, dt)] read back as a calendar date: month
    [m] (0-based, any integer) carried into the year, then [dt - 1] days
    added to the first of that month. *)
Definition make_day (y m dt : Z) : date :=
  add_days (mkDate (y + m / 12) (m mod 12 + 1) 1) (dt - 1).

(** [new Date(y, m, d)]: years 0..99 are read as 1900..1999. *)
Definition new_Date (y m d : Z) : date :=
  make_day (if (0 <=? y) && (y <=? 99) then 1900 + y else y) m d.

(** ECMAScript [DayFromYear] and the day number of a date. *)
Definition day_from_year (y : Z) : Z :=
  365 * (y - 1970) + (y - 1969) / 4 - (y - 1901) / 100 + (y - 1601) / 400.

Definition month_start (y m : Z) : Z :=
  nth (Z.to_nat (m - 1)) [0; 31; 59; 90; 120; 151; 181; 212; 243; 273; 304; 334] 0
  + (if (3 <=? m) && is_leap y then 1 else 0).

Definition day_number (t : date) : Z :=
  day_from_year (year t) + month_start (year t) (month t) + day t - 1.

(** [getDay()]: 1970-01-01 is a Thursday (4). *)
Definition getDay (t : date) : Z := (day_number t + 4) mod 7.

(** [d.setDate(dd)] and [d.setMonth(mm)]. *)
Definition setDate (t : date) (dd : Z) : date := make_day (year t) (month t - 1) dd.
Definition setMonth (t : date) (mm : Z) : date := make_day (year t) mm (day t).

(* ------------------------------------------------------------------ *)
(** ** Date helpers of the script *)

(** [parseBRDate(br)]: [None] is the Invalid Date (a NaN component). *)
Definition parseBRDate (br : jsstr) : option date :=
  match map js_Number (split_on 47 br) with
  | Some dd :: Some mm :: Some yyyy :: _ => Some (new_Date yyyy (mm - 1) dd)
  | _ => None
  end.

(** [isWeekdayBR]: on the Invalid Date [getDay()] is NaN, which is neither
    0 nor 6. *)
Definition isWeekdayBR (dataBR : jsstr) : bool :=
  match parseBRDate dataBR with
  | Some d => negb (getDay d =? 0) && negb (getDay d =? 6)
  | None => true
  end.

(** The [dd/mm/yyyy] string the script builds from a Date
    ([getTodayBR] and the loop body of [gerarDatasProximosDoisMeses]). *)
Definition fmtBR (t : date) : jsstr :=
  padStart2 (js_String (day t)) ++ [47] ++ padStart2 (js_String (month t)) ++ [47]
  ++ js_String (year t).

(** [getTodayBR()], the clock reading [hoje] being an input. *)
Definition getTodayBR (hoje : date) : jsstr := fmtBR hoje.

(** [brToIsoDateString(br)]; on the Invalid Date every getter is NaN. *)
Definition brToIsoDateString (br : jsstr) : jsstr :=
  match parseBRDate br with
  | Some d => js_String (year d) ++ [45] ++ padStart2 (js_String (month d)) ++ [45]
              ++ padStart2 (js_String (day d))
  | None => js "NaN-NaN-NaN"
  end.

(** [gerarDatasProximosDoisMeses()]: the [while (current <= fim)] loop,
    run with as much fuel as there are days from [current] to [fim]. *)
Fixpoint gerar_loop (fuel : nat) (fim current : date) (datas : list jsstr) : list jsstr :=
  match fuel with
  | O => datas
  | S f =>
      if day_number current <=? day_number fim then
        let dataBR := fmtBR current in
        let datas' := if isWeekdayBR dataBR then datas ++ [dataBR] else datas in
        gerar_loop f fim (setDate current (day current + 1)) datas'
      else datas
  end.

Definition gerar_inicio (hoje : date) : date := setDate hoje (day hoje + 7).

Definition gerar_fim (hoje : date) : date :=
  let fim := setMonth hoje (month hoje - 1 + 2) in
  setDate fim (day fim + 10).

Definition gerarDatasProximosDoisMeses (hoje : date) : list jsstr :=
  let current := gerar_inicio hoje in
  let fim := gerar_fim hoje in
  gerar_loop (Z.to_nat (day_number fim - day_number current + 1)) fim current [].

(* ------------------------------------------------------------------ *)
(** ** [esperarPautaEstabilizar] *)

(** The page answers the successive
    [page.locator('ion-list ion-item').count().catch(() => 0)] calls of the
    loop with the stream [counts] ([counts k] is the answer to the [k]-th
    call, a rejected call answering 0). The spinner waits before the loop
    are each bounded by their timeouts and read no count. *)
Inductive stab_outcome := Stable (i : nat) | Exhausted.

(** Iteration [i] of [for (let i = 0; i < 20; i++)], with the variable
    [last] and the index [k] of the next count read. *)
Fixpoint stab_loop (counts : nat -> Z) (fuel : nat) (i : nat) (last : Z) (k : nat)
  : stab_outcome :=
  match fuel with
  | O => Exhausted
  | S f =>
      let count := counts k in
      if count =? last then
        let count2 := counts (S k) in
        if count2 =? count then Stable i
        else stab_loop counts f (S i) count (S (S k))
      else stab_loop counts f (S i) count (S k)
  end.

Definition esperarPautaEstabilizar (counts : nat -> Z) : stab_outcome :=
  stab_loop counts 20 0 (-1) 0.

(* ------------------------------------------------------------------ *)
(** ** [retryOperation] *)

Inductive result (A E : Type) := Ok (a : A) | Err (e : E).
Arguments Ok {A E} a.
Arguments Err {A E} e.

(** What the call settles to: the operation's value, [undefined] (the
    loop body never ran), or a rejection with the operation's error. *)
Inductive retry_outcome (A E : Type) := Returned (a : A) | Undefined | Thrown (e : E).
Arguments Returned {A E} a.
Arguments Undefined {A E}.
Arguments Thrown {A E} e.

(** Observable steps: running the operation, the [console.warn], the
    [fecharOverlays(page)] call and the [page.waitForTimeout(delayMs)]. *)
Inductive retry_event := Attempt (n : nat) | Warn (n : nat) | Overlays | Wait (ms : Z).

Section Retry.
Context {A E : Type}.

(** [op n] is how the wrapped operation settles on attempt [n]. *)
Fixpoint retry_from (op : nat -> result A E) (maxRetries : nat) (delayMs : Z)
    (attempt : nat) (fuel : nat) : retry_outcome A E * list retry_event :=
  match fuel with
  | O => (Undefined, [])
  | S f =>
      match op attempt with
      | Ok a => (Returned a, [Attempt attempt])
      | Err e =>
          if Nat.eqb attempt maxRetries then (Thrown e, [Attempt attempt; Warn attempt])
          else let '(o, tr) := retry_from op maxRetries delayMs (S attempt) f in
               (o, Attempt attempt :: Warn attempt :: Overlays :: Wait delayMs :: tr)
      end
  end.

(** [for (let attempt = 1; attempt <= maxRetries; attempt++)]. *)
Definition retryOperation (op : nat -> result A E) (maxRetries : nat) (delayMs : Z)
  : retry_outcome A E * list retry_event :=
  retry_from op maxRetries delayMs 1 maxRetries.

End Retry.

(* ------------------------------------------------------------------ *)
(** ** [extrairProcessosDaPauta] *)

(** One [ion-list ion-item] element: the [textContent] of the first
    descendant matching each selector the mapper queries ([None]: no such
    element), and of all [.item-desc-small.item-text-wrap] descendants in
    document order. *)
Record ion_item := mkItem {
  sel_sessao : option jsstr;          (* '.sessao' *)
  sel_palavrasRight : option jsstr;   (* '.palavrasRight' *)
  sel_negrito : option jsstr;         (* '.JT-item-texto-negrito' *)
  sel_desc : list jsstr               (* '.item-desc-small.item-text-wrap' *)
}.

Record processo := mkProcesso {
  numeroProcesso : jsstr; sessao : jsstr; juiz : jsstr; reclamante : jsstr; reclamada : jsstr
}.

Definition is_empty (s : jsstr) : bool := match s with [] => true | _ => false end.

(** [t.replace(/\u00a0/g, ' ').trim()]; 160 is U+00A0. *)
Definition normText (t : jsstr) : jsstr := trim (replace_all 160 [32] t).

Definition getText (el : option jsstr) : jsstr :=
  match el with Some t => normText t | None => [] end.

(** [.filter(Boolean)] on strings. *)
Definition filterBoolean (l : list jsstr) : list jsstr := filter (fun s => negb (is_empty s)) l.

(** [partes[i] || '']. *)
Definition parte (partes : list jsstr) (i : nat) : jsstr := nth i partes [].

Definition map_item (item : ion_item) : processo :=
  let hora := getText (sel_sessao item) in
  let status := getText (sel_palavrasRight item) in
  let numero := getText (sel_negrito item) in
  let partes := filterBoolean (map normText (sel_desc item)) in
  mkProcesso numero (join (js " - ") (filterBoolean [hora; status]))
    (parte partes 0) (parte partes 1) (parte partes 2).

(** [count] is what [page.locator('ion-list ion-item').count()] resolves
    to ([None]: it rejects, read as 0 by its [.catch]); [items] is the list
    [page.evaluate] reads. [if (!count) return []], then one record per
    item. *)
Definition extrairProcessosDaPauta (count : option nat) (items : list ion_item) : list processo :=
  let n := match count with Some n => n | None => O end in
  if Nat.eqb n 0 then [] else map map_item items.

(* ------------------------------------------------------------------ *)
(** ** [csvEscape] and [writeCsv] *)

(** The character class of the regex in [csvEscape]: semicolon, double quote, LF, CR. *)
Definition csv_special (c : Z) : bool := (c =? 59) || (c =? 34) || (c =? 10) || (c =? 13).

(** [csvEscape(value)]; [None] is [null]/[undefined] (every other value
    the script passes is a string). *)
Definition csvEscape (value : option jsstr) : jsstr :=
  match value with
  | None => []
  | Some s => if existsb csv_special s then [34] ++ replace_all 34 [34; 34] s ++ [34] else s
  end.

(** A row object: its own properties, in insertion order. *)
Definition csv_row := list (jsstr * jsstr).

Definition row_get (row : csv_row) (h : jsstr) : option jsstr :=
  match find (fun kv => str_eqb (fst kv) h) row with Some kv => Some (snd kv) | None => None end.

(** The text [writeCsv(filePath, headers, rows)] writes to [filePath]. *)
Definition writeCsv (headers : list jsstr) (rows : list csv_row) : jsstr :=
  let bom := [65279] in
  let lines := join [59] (map (fun h => csvEscape (Some h)) headers)
               :: map (fun row => join [59] (map (fun h => csvEscape (row_get row h)) headers)) rows in
  bom ++ join [10] lines.

(* ------------------------------------------------------------------ *)
(** ** [navegarParaMes] *)

Inductive nav_dir := NavNext | NavPrev.

(** How [navegarParaMes] settles: [true]/[false] with the final page, or a
    rejection (an un-caught [click] of the directional buttons). *)
Inductive nav_result (W : Type) := NavDone (ok : bool) (w : W) | NavThrow (w : W).
Arguments NavDone {W} ok w.
Arguments NavThrow {W} w.

Section Navegar.
(** The page [W]; [header w] is what [getCalendarHeaderDateApprox] returns
    there, as the full year and month index of the [Date] it builds ([None]
    for [null]); [click_next w] and [click_prev w] the page after
    clicking the corresponding button ([None]: the click rejects). *)
Variable W : Type.
Variable header : W -> option (Z * Z).
Variables click_next click_prev : W -> option W.

(** Iterations of [for (let i = 0; i < maxSteps; i++)], recording each
    page where a button was clicked and which one. [ty], [tm] are
    [targetDate.getFullYear()] and [targetDate.getMonth()]. *)
Fixpoint nav_loop (ty tm : Z) (fuel : nat) (w : W) : nav_result W * list (W * nav_dir) :=
  match fuel with
  | O => (NavDone false w, [])
  | S f =>
      match header w with
      | None =>
          let w' := match click_next w with Some w' => w' | None => w end in
          let '(r, tr) := nav_loop ty tm f w' in (r, (w, NavNext) :: tr)
      | Some (y, mi) =>
          if (y =? ty) && (mi =? tm) then (NavDone true w, [])
          else
            let curKey := y * 12 + mi in
            let tgtKey := ty * 12 + tm in
            let d := if tgtKey >? curKey then NavNext else NavPrev in
            match (match d with NavNext => click_next w | NavPrev => click_prev w end) with
            | None => (NavThrow w, [(w, d)])
            | Some w' => let '(r, tr) := nav_loop ty tm f w' in (r, (w, d) :: tr)
            end
      end
  end.

Definition navegarParaMes (targetDate : date) (maxSteps : nat) (w : W)
  : nav_result W * list (W * nav_dir) :=
  nav_loop (year targetDate) (month targetDate - 1) maxSteps w.

End Navegar.

(* ------------------------------------------------------------------ *)
(** ** [extrairDataBR] *)

(** A word character of [\b]: [[A-Za-z0-9_]]. *)
Definition is_word (c : Z) : bool :=
  is_digit c || ((65 <=? c) && (c <=? 90)) || ((97 <=? c) && (c <=? 122)) || (c =? 95).

(** [\d{2}\/\d{2}\/\d{4}\b] matches at the start of [s]. *)
Definition token_at (s : jsstr) : bool :=
  match s with
  | d1 :: d2 :: b1 :: m1 :: m2 :: b2 :: y1 :: y2 :: y3 :: y4 :: rest =>
      forallb is_digit [d1; d2; m1; m2; y1; y2; y3; y4] && (b1 =? 47) && (b2 =? 47) &&
      match rest with [] => true | c :: _ => negb (is_word c) end
  | _ => false
  end.

(** The leftmost match of [/\b\d{2}\/\d{2}\/\d{4}\b/]; [prev_word]: the
    character before [s] is a word character. *)
Fixpoint find_token (prev_word : bool) (s : jsstr) : option jsstr :=
  match s with
  | [] => None
  | c :: s' => if negb prev_word && token_at s then Some (firstn 10 s)
               else find_token (is_word c) s'
  end.

Definition extrairDataBR (texto : jsstr) : jsstr :=
  match find_token false (trim texto) with Some m => m | None => [] end.

(* ------------------------------------------------------------------ *)
(** ** [irAteDataPorBotoes] and the two [selecionarDataComConfirmacao] *)

Inductive step_dir := Fwd | Bwd.

Section Stepper.
(** The page [W]: [label w] is what [lerTextoDataExibida] reads there;
    [exists_prev], [exists_next] what [ionExistsByCss] answers for the two
    buttons; [click_prev w], [click_next w] the page after
    [clickIonButtonByCss] ([None] when it answers [false]: no host
    element, nothing clicked); [overlays w] the page after
    [fecharOverlays]. *)
Variable W : Type.
Variable label : W -> jsstr.
Variables exists_prev exists_next : W -> bool.
Variables click_prev click_next : W -> option W.
Variable overlays : W -> W.

(** [raw && raw.includes(alvoBR)]. *)
Definition shows (alvoBR raw : jsstr) : bool := negb (is_empty raw) && includes raw alvoBR.

(** [parseBRDate(x).getTime()], [None] for [NaN]. *)
Definition br_time (x : jsstr) : option Z := option_map day_number (parseBRDate x).

(** The [direction] computed from [raw]. *)
Definition choose_dir (hasPrev : bool) (alvoDate : option Z) (raw : jsstr) : step_dir :=
  let atualBR := extrairDataBR raw in
  if negb (is_empty atualBR) then
    match br_time atualBR, alvoDate with
    | Some atualDate, Some a => if hasPrev && (a <? atualDate) then Bwd else Fwd
    | _, _ => Fwd
    end
  else Fwd.

(** Iterations of [for (let step = 1; step <= maxSteps; step++)]; the
    trace records each step's page and chosen direction. The text
    [esperarTextoMudar] returns is the label of the page after the click. *)
Fixpoint stepper_loop (alvoBR : jsstr) (hasPrev : bool) (alvoDate : option Z) (fuel : nat)
    (w : W) : bool * W * list (W * step_dir) :=
  match fuel with
  | O => (false, w, [])
  | S f =>
      let raw := label w in
      if shows alvoBR raw then (true, w, [])
      else
        let d := choose_dir hasPrev alvoDate raw in
        match (match d with Bwd => click_prev w | Fwd => click_next w end) with
        | None =>
            let '(ok, w', tr) := stepper_loop alvoBR hasPrev alvoDate f w in (ok, w', (w, d) :: tr)
        | Some w1 =>
            if shows alvoBR (label w1) then (true, w1, [(w, d)])
            else let '(ok, w', tr) := stepper_loop alvoBR hasPrev alvoDate f w1 in
                 (ok, w', (w, d) :: tr)
        end
  end.

Definition irAteDataPorBotoes (alvoBR : jsstr) (maxSteps : nat) (w : W)
  : bool * W * list (W * step_dir) :=
  let w0 := overlays w in
  let alvoDate := br_time alvoBR in
  let hasPrev := exists_prev w0 in
  let hasNext := exists_next w0 in
  if negb hasNext && negb hasPrev then (false, w0, [])
  else if shows alvoBR (label w0) then (true, w0, [])
  else stepper_loop alvoBR hasPrev alvoDate maxSteps w0.

(** [selecionarDataComConfirmacao] of the second script: attempts
    [t = 1 .. maxTentativas], each calling [irAteDataPorBotoes(page, dataBR, 220)];
    the reads [rawAntes] and [rawDepois] only feed the log. *)
Fixpoint selecionar_botoes_loop (dataBR : jsstr) (fuel : nat) (w : W) : bool * W :=
  match fuel with
  | O => (false, w)
  | S f =>
      let '(ok, w1, _) := irAteDataPorBotoes dataBR 220 w in
      if ok then (true, w1) else selecionar_botoes_loop dataBR f (overlays w1)
  end.

Definition selecionarDataComConfirmacao_botoes (dataBR : jsstr) (maxTentativas : nat) (w : W)
  : bool * W :=
  selecionar_botoes_loop dataBR maxTentativas w.

End Stepper.

Section Calendario.
(** The page [W]: [selecionarDataNoCalendario dataBR w] is how that call
    settles ([None]: it rejects, e.g. a [waitFor] timing out; otherwise
    [okDia] and the page after it); [button_text w] is what
    [page.getByTestId('pautaButtonData').innerText()] resolves to ([None]:
    it rejects, read as ['']). *)
Variable W : Type.
Variable selecionarDataNoCalendario : jsstr -> W -> option (bool * W).
Variable button_text : W -> option jsstr.

Definition dataVisivel (w : W) : jsstr :=
  trim (match button_text w with Some t => t | None => [] end).

(** [selecionarDataComConfirmacao] of the first script, [None] for a
    rejection. *)
Fixpoint selecionar_calendario_loop (dataBR : jsstr) (fuel : nat) (w : W) : option (bool * W) :=
  match fuel with
  | O => Some (false, w)
  | S f =>
      match selecionarDataNoCalendario dataBR w with
      | None => None
      | Some (okClique, w1) =>
          if negb okClique then selecionar_calendario_loop dataBR f w1
          else if str_eqb (dataVisivel w1) dataBR then Some (true, w1)
          else selecionar_calendario_loop dataBR f w1
      end
  end.

Definition selecionarDataComConfirmacao_calendario (dataBR : jsstr) (maxTentativas : nat) (w : W)
  : option (bool * W) :=
  selecionar_calendario_loop dataBR maxTentativas w.

End Calendario.

(* ------------------------------------------------------------------ *)
(** ** Reference notions used to state the claims *)

(** Zero-padded decimal digits of fixed width: the canonical forms. *)
Definition two (n : Z) : jsstr := [48 + n / 10; 48 + n mod 10].
Definition four (n : Z) : jsstr :=
  [48 + n / 1000; 48 + (n / 100) mod 10; 48 + (n / 10) mod 10; 48 + n mod 10].

(** The canonical [DD/MM/YYYY] and [YYYY-MM-DD] strings of a date. *)
Definition canonical_br (y m d : Z) : jsstr := two d ++ [47] ++ two m ++ [47] ++ four y.
Definition canonical_iso (y m d : Z) : jsstr := four y ++ [45] ++ two m ++ [45] ++ two d.

(** The days visited by the range generator: [n] days from [t]. *)
Fixpoint day_seq (t : date) (n : nat) : list date :=
  match n with O => [] | S n' => t :: day_seq (next_day t) n' end.

(** Every code unit is an ASCII digit. *)
Definition all_digits (s : jsstr) : Prop := Forall (fun c => is_digit c = true) s.

(** [a] denotes a date strictly before the date denoted by [b]. *)
Definition br_before (a b : jsstr) : Prop :=
  exists ta tb, parseBRDate a = Some ta /\ parseBRDate b = Some tb
    /\ day_number ta < day_number tb.

(** The loop's [(last, k)] at the start of iteration [j], when no earlier
    iteration returned. *)
Fixpoint stab_at (counts : nat -> Z) (j : nat) : Z * nat :=
  match j with
  | O => (-1, O)
  | S j' => let '(last, k) := stab_at counts j' in
            if counts k =? last then (counts k, S (S k)) else (counts k, S k)
  end.

(** Iteration [j] sees its count equal to the previous poll's count and
    the re-sample equal as well. *)
Definition stab_confirms (counts : nat -> Z) (j : nat) : Prop :=
  let '(last, k) := stab_at counts j in counts k = last /\ counts (S k) = counts k.

(** The events of the failed attempts [from], ..., [from + n - 1], each
    followed by the overlay guard and the delay. *)
Fixpoint retried (from n : nat) (delayMs : Z) : list retry_event :=
  match n with
  | O => []
  | S n' => Attempt from :: Warn from :: Overlays :: Wait delayMs :: retried (S from) n' delayMs
  end.

(** The [k]-th (from 0) non-empty description sub-field after
    normalisation, or the empty string when there are fewer. *)
Fixpoint kth_nonempty (k : nat) (l : list jsstr) : jsstr :=
  match l with
  | [] => []
  | s :: l' =>
      if is_empty (normText s) then kth_nonempty k l'
      else match k with O => normText s | S k' => kth_nonempty k' l' end
  end.

(** A reader for the format: fields separated by [;], records by LF, a
    field starting with a double quote runs to the next lone double quote,
    a doubled double quote inside it standing for one. Accumulators are
    reversed. *)
Inductive csv_state := FieldStart | Unquoted | Quoted | QuoteInQuoted.

Fixpoint csv_go (st : csv_state) (fld : jsstr) (rec : list jsstr) (recs : list (list jsstr))
    (s : jsstr) : list (list jsstr) :=
  match s with
  | [] => rev (rev (rev fld :: rec) :: recs)
  | c :: s' =>
      match st with
      | Quoted =>
          if c =? 34 then csv_go QuoteInQuoted fld rec recs s' else csv_go Quoted (c :: fld) rec recs s'
      | _ =>
          if c =? 59 then csv_go FieldStart [] (rev fld :: rec) recs s'
          else if c =? 10 then csv_go FieldStart [] [] (rev (rev fld :: rec) :: recs) s'
          else if c =? 34 then
            match st with
            | FieldStart => csv_go Quoted [] rec recs s'
            | QuoteInQuoted => csv_go Quoted (34 :: fld) rec recs s'
            | _ => csv_go Unquoted (34 :: fld) rec recs s'
            end
          else csv_go Unquoted (c :: fld) rec recs s'
      end
  end.

Definition csv_read (s : jsstr) : list (list jsstr) := csv_go FieldStart [] [] [] s.

(** The value a cell stands for. *)
Definition cell_value (v : option jsstr) : jsstr := match v with Some s => s | None => [] end.

Definition stab_confirms_b (counts : nat -> Z) (j : nat) : bool :=
  let '(last, k) := stab_at counts j in (counts k =? last) && (counts (S k) =? counts k).


(** [start], [start + step], ..., [n] terms. *)
Fixpoint zseq (start step : Z) (n : nat) : list Z :=
  match n with O => [] | S n' => start :: zseq (start + step) step n' end.

(** The header a well-read calendar shows on the month with key [k]
    ([year * 12 + month index]), and its two buttons. *)
Definition key_header (k : Z) : option (Z * Z) := Some (k / 12, k mod 12).
Definition key_next (k : Z) : option Z := Some (k + 1).
Definition key_prev (k : Z) : option Z := Some (k - 1).

(** A click of [navegarParaMes] on page [v] in direction [d] agrees with
    the header read there: forward when unreadable; otherwise the header's
    month is not the target's, and the direction is forward exactly when the
    target key is greater, backward exactly when it is smaller. *)
Definition nav_ok {W : Type} (header : W -> option (Z * Z)) (ty tm : Z) (vd : W * nav_dir) : Prop :=
  match header (fst vd) with
  | None => snd vd = NavNext
  | Some (y, mi) => y * 12 + mi <> ty * 12 + tm /\
      (snd vd = NavNext <-> ty * 12 + tm > y * 12 + mi) /\
      (snd vd = NavPrev <-> ty * 12 + tm < y * 12 + mi)
  end.

(* ================================================================== *)
(** * The remaining functions of the scraper *)

(* ------------------------------------------------------------------ *)
(** ** [parseMailTo] and [escapeRegExp] *)

(** [s.split(/[;,]/g)]: split at every unit of [seps]. *)
Fixpoint split_any_aux (seps : list Z) (cur : jsstr) (s : jsstr) : list jsstr :=
  match s with
  | [] => [rev cur]
  | c :: s' => if existsb (Z.eqb c) seps then rev cur :: split_any_aux seps [] s'
               else split_any_aux seps (c :: cur) s'
  end.

Definition split_any (seps : list Z) (s : jsstr) : list jsstr := split_any_aux seps [] s.

(** [parseMailTo(value)]; [value] comes from [getEnv], a string ([!value]
    holds of the empty string only). *)
Definition parseMailTo (value : jsstr) : list jsstr :=
  if is_empty value then []
  else filterBoolean (map trim (split_any [59; 44] value)).

(** The characters of the class [[.*+?^${}()|[\]\\]]. *)
Definition is_regex_special (c : Z) : bool :=
  existsb (Z.eqb c) [46; 42; 43; 63; 94; 36; 123; 125; 40; 41; 124; 91; 93; 92].

(** [s.replace(/[.*+?^${}()|[\]\\]/g, '\\$&')]: a backslash before each match. *)
Fixpoint escapeRegExp (s : jsstr) : jsstr :=
  match s with
  | [] => []
  | c :: s' => (if is_regex_special c then [92; c] else [c]) ++ escapeRegExp s'
  end.
(* ------------------------------------------------------------------ *)
(** ** [insertRowsMySql] *)

(** A row handed to [insertRowsMySql]; [None] for an [undefined] field. *)
Record db_row := mkDbRow {
  r_geradoEm : jsstr; r_vara : jsstr; r_data : jsstr; r_numeroProcesso : jsstr;
  r_sessao : option jsstr; r_juiz : option jsstr;
  r_reclamante : option jsstr; r_reclamada : option jsstr }.

(** A bound parameter of [pool.query]: [new Date(s)], a string, or [null]. *)
Inductive sql_value := SqlDate (s : jsstr) | SqlStr (s : jsstr) | SqlNull.

Definition sql_opt (v : option jsstr) : sql_value :=
  match v with Some s => SqlStr s | None => SqlNull end.

(** The nine values pushed for one row. *)
Definition row_values (r : db_row) : list sql_value :=
  [SqlDate (r_geradoEm r); SqlStr (r_vara r); SqlStr (r_data r);
   SqlStr (brToIsoDateString (r_data r)); SqlStr (r_numeroProcesso r);
   sql_opt (r_sessao r); sql_opt (r_juiz r); sql_opt (r_reclamante r);
   sql_opt (r_reclamada r)].

(** [Array.prototype.slice(s, e)], negative indices counted from the end. *)
Definition js_slice {A} (l : list A) (s e : Z) : list A :=
  let len := Z.of_nat (List.length l) in
  let rel x := if x <? 0 then Z.max 0 (len + x) else Z.min x len in
  firstn (Z.to_nat (rel e - rel s)) (skipn (Z.to_nat (rel s)) l).

Definition insert_sql_head : jsstr := js "
INSERT INTO pauta_processos
(geradoEm, vara, dataBR, dataISO, numeroProcesso, sessao, juiz, reclamante, reclamada)
VALUES ".

Definition insert_sql_tail : jsstr := js "
ON DUPLICATE KEY UPDATE
  geradoEm = VALUES(geradoEm),
  sessao = VALUES(sessao),
  juiz = VALUES(juiz),
  reclamante = VALUES(reclamante),
  reclamada = VALUES(reclamada)
".

Definition row_placeholder : jsstr := js "(?,?,?,?,?,?,?,?,?)".

(** The statement for a chunk of [n] rows. *)
Definition insert_sql (n : nat) : jsstr :=
  insert_sql_head ++ join [44] (List.repeat row_placeholder n) ++ insert_sql_tail.

(** How the call ends: resolved with [insertedOrUpdated], rejected by a
    query, or still running when the fuel is spent. *)
Inductive ins_outcome := InsDone (total : Z) | InsRejected | InsRunning.

Section Insert.
(** [resp k]: the result of the [k]-th [pool.query]: [None] if it rejects,
    [Some a] with [a] its [affectedRows] ([None] when absent). *)
Variable resp : nat -> option (option Z).
Variable rows : list db_row.
Variable chunkSize : Z.

Definition affected (a : option Z) : Z := match a with Some n => n | None => 0 end.

(** The [for] loop from index [i], [k] queries issued so far; returns the
    outcome and the queries [(sql, values)] issued. *)
Fixpoint ins_loop (fuel : nat) (i : Z) (k : nat) (total : Z)
  : ins_outcome * list (jsstr * list sql_value) :=
  match fuel with
  | O => (InsRunning, [])
  | S f =>
      if i <? Z.of_nat (List.length rows) then
        let chunk := js_slice rows i (i + chunkSize) in
        let q := (insert_sql (List.length chunk), flat_map row_values chunk) in
        match resp k with
        | None => (InsRejected, [q])
        | Some a => let (o, qs) := ins_loop f (i + chunkSize) (S k) (total + affected a) in
                    (o, q :: qs)
        end
      else (InsDone total, [])
  end.

End Insert.

(** [insertRowsMySql(pool, rows, chunkSize)]; [pool_ok]: [pool] is truthy.
    The fuel [S (List.length rows)] covers every run with [chunkSize >= 1]. *)
Definition insertRowsMySql (resp : nat -> option (option Z)) (pool_ok : bool)
    (rows : list db_row) (chunkSize : Z) : ins_outcome * list (jsstr * list sql_value) :=
  if negb pool_ok then (InsDone 0, [])
  else match rows with
       | [] => (InsDone 0, [])
       | _ => ins_loop resp rows chunkSize (S (List.length rows)) 0 0 0
       end.
(* ------------------------------------------------------------------ *)
(** ** [main] of the first script *)

Definition csv_headers : list jsstr :=
  [js "geradoEm"; js "vara"; js "data"; js "numeroProcesso"; js "sessao"; js "juiz";
   js "reclamante"; js "reclamada"].

(** The object pushed to [rowsCsv] for record [p] of [vara] on [dataBR]. *)
Definition mk_csv_row (geradoEm vara dataBR : jsstr) (p : processo) : csv_row :=
  [(js "geradoEm", geradoEm); (js "vara", vara); (js "data", dataBR);
   (js "numeroProcesso", numeroProcesso p); (js "sessao", sessao p); (js "juiz", juiz p);
   (js "reclamante", reclamante p); (js "reclamada", reclamada p)].

(** What the loop logs for one [(vara, dataBR)]: the date skipped
    ([Pulando data]) or the records read ([vara | dataBR | n processos]). *)
Inductive visit := Skipped (vara dataBR : jsstr) | Visited (vara dataBR : jsstr) (ps : list processo).

Section Main1.
(** The page [W]; each call settles to [None] when it rejects. The
    calendar oracles are those of [selecionarDataComConfirmacao];
    [extrair_w w] is what [extrairProcessosDaPauta] reads: the item count
    and the items. *)
Variable W : Type.
Variables abrirJTeSelecionarTRT2 abrirModuloPauta : W -> option W.
Variable listarVaras_w : W -> option (list jsstr * W).
Variable selecionarUnidade_w : jsstr -> W -> option W.
Variable selecionarDataNoCalendario : jsstr -> W -> option (bool * W).
Variable button_text : W -> option jsstr.
Variable esperarPautaEstabilizar_w : W -> option W.
Variable extrair_w : W -> option (option nat * list ion_item).
Variable geradoEm : jsstr.

(** [for (const dataBR of datas)] for one [vara]. *)
Fixpoint main1_datas (vara : jsstr) (datas : list jsstr) (w : W) (rowsCsv : list csv_row)
  : option (list csv_row * list visit * W) :=
  match datas with
  | [] => Some (rowsCsv, [], w)
  | dataBR :: ds =>
      match selecionarDataComConfirmacao_calendario W selecionarDataNoCalendario button_text
              dataBR 3 w with
      | None => None
      | Some (ok, w1) =>
          if negb ok then
            match main1_datas vara ds w1 rowsCsv with
            | Some (r, vs, w') => Some (r, Skipped vara dataBR :: vs, w')
            | None => None
            end
          else
            match esperarPautaEstabilizar_w w1 with
            | None => None
            | Some w2 =>
                match extrair_w w2 with
                | None => None
                | Some (count, items) =>
                    let processos := extrairProcessosDaPauta count items in
                    match main1_datas vara ds w2
                            (rowsCsv ++ map (mk_csv_row geradoEm vara dataBR) processos) with
                    | Some (r, vs, w') => Some (r, Visited vara dataBR processos :: vs, w')
                    | None => None
                    end
                end
            end
      end
  end.

(** [for (const vara of varasAlvo)]. *)
Fixpoint main1_varas (varas datas : list jsstr) (w : W) (rowsCsv : list csv_row)
  : option (list csv_row * list visit * W) :=
  match varas with
  | [] => Some (rowsCsv, [], w)
  | vara :: vs0 =>
      match selecionarUnidade_w vara w with
      | None => None
      | Some w1 =>
          match main1_datas vara datas w1 rowsCsv with
          | None => None
          | Some (r, vs, w2) =>
              match main1_varas vs0 datas w2 r with
              | Some (r', vs', w3) => Some (r', vs ++ vs', w3)
              | None => None
              end
          end
      end
  end.

(** [main()]: [Some (text, log)] when [writeCsv] is reached, [text] being
    what it writes; [None] when a call rejects, caught by [catch], which
    writes nothing. The clock reading [hoje] is an input. *)
Definition main1 (hoje : date) (w : W) : option (jsstr * list visit) :=
  match abrirJTeSelecionarTRT2 w with
  | None => None
  | Some w1 =>
      match abrirModuloPauta w1 with
      | None => None
      | Some w2 =>
          match listarVaras_w w2 with
          | None => None
          | Some (varas, w3) =>
              let datas := gerarDatasProximosDoisMeses hoje in
              match main1_varas varas datas w3 [] with
              | None => None
              | Some (rowsCsv, log, _) => Some (writeCsv csv_headers rowsCsv, log)
              end
          end
      end
  end.

End Main1.
(* ------------------------------------------------------------------ *)
(** ** [writeXlsx] column widths *)

(** The [maxLen] loop for column header [h]: [ws.eachRow] skips row 1 (the
    header row) and visits the data rows in order; [row.getCell(c).value]
    is the row object's property [h] ([null] counted as ['']). *)
Fixpoint xlsx_maxLen (h : jsstr) (rows : list csv_row) (maxLen : Z) : Z :=
  match rows with
  | [] => maxLen
  | r :: rs =>
      let s := cell_value (row_get r h) in
      xlsx_maxLen h rs (if Z.of_nat (List.length s) >? maxLen then Z.of_nat (List.length s) else maxLen)
  end.

(** [ws.getColumn(c).width = Math.max(12, Math.min(60, maxLen + 2))]. *)
Definition xlsx_column_width (headers : list jsstr) (rows : list csv_row) (c : nat) : Z :=
  let h := nth (c - 1) headers [] in
  Z.max 12 (Z.min 60 (xlsx_maxLen h rows (Z.of_nat (List.length h)) + 2)).

(** The widths of columns [1 .. headers.length] after [writeXlsx]; the
    initial widths [Math.max(12, Math.min(40, h.length + 6))] are all
    overwritten by this loop. *)
Definition writeXlsx_widths (headers : list jsstr) (rows : list csv_row) : list Z :=
  map (xlsx_column_width headers rows) (seq 1 (List.length headers)).

(* ------------------------------------------------------------------ *)
(** ** [getEnv] and the checks of [sendEmailWithAttachment] *)

(** [getEnv(name, fallback)] over the environment [env] ([None]: unset). *)
Definition getEnv (env : jsstr -> option jsstr) (name : jsstr) (fallback : option jsstr)
  : option jsstr :=
  match env name with
  | None => fallback
  | Some v => if is_empty v then fallback else Some v
  end.

(** JS truthiness of a string or [undefined]. *)
Definition truthy (v : option jsstr) : bool :=
  match v with Some s => negb (is_empty s) | None => false end.

Definition opt_str (v : option jsstr) : jsstr := match v with Some s => s | None => [] end.

(** [s.toLowerCase() === 'true']. Folding [A-Z] is exact for this test:
    the only non-ASCII code points whose lower case contains ASCII letters
    are U+0130 (to [i] and U+0307) and U+212A (to [k]). *)
Definition ascii_lower (c : Z) : Z := if (65 <=? c) && (c <=? 90) then c + 32 else c.
Definition lower_is_true (s : jsstr) : bool := str_eqb (map ascii_lower s) (js "true").

(** The transport settings [sendEmailWithAttachment] builds; [smtp_port]
    is the string handed to [Number]. *)
Record smtp_config := mkSmtp {
  smtp_host : jsstr; smtp_port : jsstr; smtp_secure : bool; smtp_user : jsstr;
  smtp_pass : jsstr; smtp_from : jsstr; smtp_to : list jsstr }.

Definition smtp_error : jsstr :=
  js "Config SMTP incompleta. Verifique SMTP_HOST/SMTP_USER/SMTP_PASS/MAIL_FROM/MAIL_TO no env.".

(** Everything [sendEmailWithAttachment] does before [createTransport]:
    the settings, or the error it throws. *)
Definition sendEmail_config (env : jsstr -> option jsstr) : result smtp_config jsstr :=
  let host := getEnv env (js "SMTP_HOST") None in
  let port := opt_str (getEnv env (js "SMTP_PORT") (Some (js "587"))) in
  let secure := lower_is_true (opt_str (getEnv env (js "SMTP_SECURE") (Some (js "false")))) in
  let user := getEnv env (js "SMTP_USER") None in
  let pass := getEnv env (js "SMTP_PASS") None in
  let from := getEnv env (js "MAIL_FROM") user in
  let to := parseMailTo (opt_str (getEnv env (js "MAIL_TO") (Some []))) in
  if negb (truthy host) || negb (truthy user) || negb (truthy pass) || negb (truthy from)
     || Nat.eqb (List.length to) 0
  then Err smtp_error
  else Ok (mkSmtp (opt_str host) port secure (opt_str user) (opt_str pass) (opt_str from) to).

(* ------------------------------------------------------------------ *)
(** ** [readIonButtonTextByXpath] and [lerTextoDataExibida] *)

(** The node the XPath selects: [innerText] and [textContent] of its inner
    [button] ([None] when there is no button) and of the node itself
    ([None] when undefined). *)
Record ion_node := mkIonNode {
  btn_innerText : option jsstr; btn_textContent : option jsstr;
  node_innerText : option jsstr; node_textContent : option jsstr }.

(** [a || b || c || d || '']. *)
Fixpoint or_chain (l : list (option jsstr)) : jsstr :=
  match l with
  | [] => []
  | v :: l' => if truthy v then opt_str v else or_chain l'
  end.

(** [r]: [None] when [page.evaluate] rejects, [Some None] when no node. *)
Definition readIonButtonTextByXpath (r : option (option ion_node)) : jsstr :=
  match r with
  | Some (Some n) =>
      trim (or_chain [btn_innerText n; btn_textContent n; node_innerText n; node_textContent n])
  | _ => []
  end.

(** [inner]: what [getByTestId('pautaButtonData').innerText()] resolves to
    ([None]: it rejects, read as ['']). *)
Definition lerTextoDataExibida (r : option (option ion_node)) (inner : option jsstr) : jsstr :=
  let raw := readIonButtonTextByXpath r in
  if negb (is_empty raw) then raw
  else match inner with
       | Some t => if negb (is_empty t) && negb (is_empty (trim t)) then trim t else []
       | None => []
       end.

(* ------------------------------------------------------------------ *)
(** ** Notions the further properties are stated with *)

(** A pattern made only of literal atoms: a character outside the syntax
    characters [^$\.*+?()[]{}|] stands for itself, and a backslash followed
    by a syntax character (an identity escape) stands for that character.
    [regex_literal p = Some s]: [p] is such a pattern and matches exactly [s]. *)
Fixpoint regex_literal (p : jsstr) : option jsstr :=
  match p with
  | [] => Some []
  | c :: p' =>
      if c =? 92 then
        match p' with
        | [] => None
        | d :: p'' => if is_regex_special d then option_map (cons d) (regex_literal p'')
                      else None
        end
      else if is_regex_special c then None
      else option_map (cons c) (regex_literal p')
  end.

(** No leading and no trailing white space. *)
Definition trimmed (s : jsstr) : Prop :=
  (forall c, hd_error s = Some c -> is_js_ws c = false) /\
  (forall c, hd_error (rev s) = Some c -> is_js_ws c = false).

(** A well-formed address list entry: non-empty, trimmed, no separator. *)
Definition mail_ok (a : jsstr) : Prop :=
  a <> [] /\ trimmed a /\ Forall (fun c => c <> 59 /\ c <> 44) a.

(** [sum_affected resp k n]: the [affectedRows] of queries [k .. k+n-1]. *)
Fixpoint sum_affected (resp : nat -> option (option Z)) (k n : nat) : Z :=
  match n with
  | O => 0
  | S n' => match resp k with Some a => affected a | None => 0 end + sum_affected resp (S k) n'
  end.

(** A [DD/MM/YYYY]-shaped string: ten units, digits and two slashes. *)
Definition br_shape (x : jsstr) : bool :=
  match x with
  | [d1; d2; b1; m1; m2; b2; y1; y2; y3; y4] =>
      forallb is_digit [d1; d2; m1; m2; y1; y2; y3; y4] && (b1 =? 47) && (b2 =? 47)
  | _ => false
  end.

(** A text field as the scraper leaves it: no white space at either end and
    no U+00A0. *)
Definition field_clean (s : jsstr) : Prop := trimmed s /\ Forall (fun c => c <> 160) s.

(** The [(vara, dataBR)] of a log entry, and the cells its records give. *)
Definition visit_key (v : visit) : jsstr * jsstr :=
  match v with Skipped a d => (a, d) | Visited a d _ => (a, d) end.

Definition visit_cells (geradoEm : jsstr) (v : visit) : list (list jsstr) :=
  match v with
  | Skipped _ _ => []
  | Visited a d ps =>
      map (fun p => [geradoEm; a; d; numeroProcesso p; sessao p; juiz p; reclamante p; reclamada p]) ps
  end.

(** The rows the loop pushes for one log entry. *)
Definition visit_rows (g : jsstr) (v : visit) : list csv_row :=
  match v with Skipped _ _ => [] | Visited a d ps => map (mk_csv_row g a d) ps end.

(* ================================================================== *)
(** * Lemmas on the date and string helpers *)

Lemma days_in_month_bounds y m : 28 <= days_in_month y m <= 31.
Proof.
  unfold days_in_month.
  destruct (m =? 2); [destruct (is_leap y); lia|].
  destruct ((m =? 4) || (m =? 6) || (m =? 9) || (m =? 11)); lia.
Qed.

(** [(a+1)/b - a/b] is 1 exactly when [b] divides [a+1]. *)
Ltac div_step_tac a b :=
  pose proof (Z.div_mod (a + 1) b ltac:(lia));
  pose proof (Z.mod_pos_bound (a + 1) b ltac:(lia));
  pose proof (Z.div_mod a b ltac:(lia));
  pose proof (Z.mod_pos_bound a b ltac:(lia)).

Lemma div_step4 a : (a + 1) / 4 - a / 4 = if (a + 1) mod 4 =? 0 then 1 else 0.
Proof. div_step_tac a 4. destruct (Z.eqb_spec ((a + 1) mod 4) 0); lia. Qed.

Lemma div_step100 a : (a + 1) / 100 - a / 100 = if (a + 1) mod 100 =? 0 then 1 else 0.
Proof. div_step_tac a 100. destruct (Z.eqb_spec ((a + 1) mod 100) 0); lia. Qed.

Lemma div_step400 a : (a + 1) / 400 - a / 400 = if (a + 1) mod 400 =? 0 then 1 else 0.
Proof. div_step_tac a 400. destruct (Z.eqb_spec ((a + 1) mod 400) 0); lia. Qed.

Lemma day_from_year_succ y :
  day_from_year (y + 1) = day_from_year y + 365 + (if is_leap y then 1 else 0).
Proof.
  unfold day_from_year, is_leap.
  replace (y + 1 - 1969) with ((y - 1969) + 1) by lia.
  replace (y + 1 - 1901) with ((y - 1901) + 1) by lia.
  replace (y + 1 - 1601) with ((y - 1601) + 1) by lia.
  pose proof (div_step4 (y - 1969)). pose proof (div_step100 (y - 1901)).
  pose proof (div_step400 (y - 1601)).
  replace (y - 1969 + 1) with (y + (-492) * 4) in * by lia.
  replace (y - 1901 + 1) with (y + (-19) * 100) in * by lia.
  replace (y - 1601 + 1) with (y + (-4) * 400) in * by lia.
  rewrite !Z_mod_plus_full in *.
  pose proof (Z.div_mod y 4 ltac:(lia)); pose proof (Z.mod_pos_bound y 4 ltac:(lia)).
  pose proof (Z.div_mod y 100 ltac:(lia)); pose proof (Z.mod_pos_bound y 100 ltac:(lia)).
  pose proof (Z.div_mod y 400 ltac:(lia)); pose proof (Z.mod_pos_bound y 400 ltac:(lia)).
  destruct (Z.eqb_spec (y mod 4) 0), (Z.eqb_spec (y mod 100) 0),
    (Z.eqb_spec (y mod 400) 0); cbn [andb orb negb]; lia.
Qed.

Lemma next_day_valid t : valid_date t -> valid_date (next_day t).
Proof.
  unfold valid_date, next_day; intros [Hm Hd].
  pose proof (days_in_month_bounds (year t) (month t + 1)).
  pose proof (days_in_month_bounds (year t + 1) 1).
  destruct (Z.ltb_spec (day t) (days_in_month (year t) (month t))); simpl; [lia|].
  destruct (Z.ltb_spec (month t) 12); simpl; lia.
Qed.

Lemma next_day_number t : valid_date t -> day_number (next_day t) = day_number t + 1.
Proof.
  unfold valid_date, next_day, day_number; intros [Hm Hd].
  destruct (Z.ltb_spec (day t) (days_in_month (year t) (month t))); simpl; [lia|].
  assert (Hdim : day t = days_in_month (year t) (month t)) by lia.
  destruct (Z.ltb_spec (month t) 12); simpl.
  - rewrite Hdim. destruct t as [y m d]; simpl in *.
    assert (m = 1 \/ m = 2 \/ m = 3 \/ m = 4 \/ m = 5 \/ m = 6 \/ m = 7 \/ m = 8
            \/ m = 9 \/ m = 10 \/ m = 11) by lia.
    unfold month_start, days_in_month.
    repeat match goal with H : _ \/ _ |- _ => destruct H end; subst; simpl;
      destruct (is_leap y); simpl; lia.
  - assert (month t = 12) by lia. rewrite Hdim.
    destruct t as [y m d]; simpl in *; subst m.
    rewrite day_from_year_succ. unfold month_start, days_in_month; simpl.
    destruct (is_leap y); simpl; lia.
Qed.

Lemma next_day_year t : year t <= year (next_day t).
Proof.
  unfold next_day.
  destruct (day t <? days_in_month (year t) (month t)); simpl; [lia|].
  destruct (month t <? 12); simpl; lia.
Qed.

Lemma prev_day_valid t : valid_date t -> valid_date (prev_day t) /\ next_day (prev_day t) = t.
Proof.
  unfold valid_date, prev_day; intros [Hm Hd].
  destruct t as [y m d]; simpl in *.
  destruct (Z.ltb_spec 1 d).
  - split; simpl; [lia|]. unfold next_day; simpl.
    destruct (Z.ltb_spec (d - 1) (days_in_month y m)); [|lia].
    f_equal; lia.
  - destruct (Z.ltb_spec 1 m).
    + pose proof (days_in_month_bounds y (m - 1)).
      split; simpl; [lia|]. unfold next_day; simpl.
      rewrite Z.ltb_irrefl. destruct (Z.ltb_spec (m - 1) 12); [|lia].
      f_equal; lia.
    + split; simpl; [unfold days_in_month; simpl; lia|].
      unfold next_day, days_in_month; simpl. f_equal; lia.
Qed.

Lemma iter_next_valid n t : valid_date t ->
  valid_date (iter_n n next_day t) /\ day_number (iter_n n next_day t) = day_number t + Z.of_nat n.
Proof.
  intros Hv; induction n as [|n IH]; simpl; [split; [auto|lia]|].
  destruct IH as [Hv' Hn]. split; [apply next_day_valid; auto|].
  rewrite next_day_number by auto. lia.
Qed.

Lemma iter_prev_valid n t : valid_date t ->
  valid_date (iter_n n prev_day t) /\ day_number (iter_n n prev_day t) = day_number t - Z.of_nat n.
Proof.
  intros Hv; induction n as [|n IH]; simpl; [split; [auto|lia]|].
  destruct IH as [Hv' Hn]. destruct (prev_day_valid _ Hv') as [Hp Hnp].
  split; [auto|].
  assert (day_number (next_day (prev_day (iter_n n prev_day t)))
          = day_number (prev_day (iter_n n prev_day t)) + 1) by (apply next_day_number; auto).
  rewrite Hnp in H. lia.
Qed.

Lemma add_days_valid t k : valid_date t ->
  valid_date (add_days t k) /\ day_number (add_days t k) = day_number t + k.
Proof.
  intros Hv; unfold add_days.
  destruct (Z.leb_spec 0 k).
  - destruct (iter_next_valid (Z.to_nat k) t Hv); split; auto; lia.
  - destruct (iter_prev_valid (Z.to_nat (- k)) t Hv); split; auto; lia.
Qed.

Lemma make_day_valid y m d : valid_date (make_day y m d).
Proof.
  unfold make_day. apply add_days_valid.
  pose proof (Z.mod_pos_bound m 12 ltac:(lia)).
  pose proof (days_in_month_bounds (y + m / 12) (m mod 12 + 1)).
  unfold valid_date; simpl; lia.
Qed.

Lemma iter_next_in_month n y m :
  1 + Z.of_nat n <= days_in_month y m ->
  iter_n n next_day (mkDate y m 1) = mkDate y m (1 + Z.of_nat n).
Proof.
  induction n as [|n IH]; intros H; cbn [iter_n]; [reflexivity|].
  rewrite IH by lia. unfold next_day; cbn [year month day].
  destruct (Z.ltb_spec (1 + Z.of_nat n) (days_in_month y m)); [|lia].
  f_equal; lia.
Qed.

Lemma make_day_fields t : valid_date t -> make_day (year t) (month t - 1) (day t) = t.
Proof.
  intros [Hm Hd]. unfold make_day, add_days.
  rewrite Z.div_small, Z.mod_small by lia.
  destruct (Z.leb_spec 0 (day t - 1)); [|lia].
  replace (year t + 0) with (year t) by lia.
  replace (month t - 1 + 1) with (month t) by lia.
  rewrite iter_next_in_month by lia.
  destruct t; cbn [year month day] in *; f_equal; lia.
Qed.

(** [current.setDate(current.getDate() + 1)] is the next calendar day. *)
Lemma setDate_succ t : valid_date t -> setDate t (day t + 1) = next_day t.
Proof.
  intros Hv. pose proof Hv as [Hm Hd]. unfold setDate, make_day, add_days.
  destruct (Z.leb_spec 0 (day t + 1 - 1)); [|lia].
  replace (Z.to_nat (day t + 1 - 1)) with (S (Z.to_nat (day t - 1))) by lia.
  simpl. fold (add_days (mkDate (year t + (month t - 1) / 12) ((month t - 1) mod 12 + 1) 1)
                 (day t - 1)).
  assert (Ht : add_days (mkDate (year t + (month t - 1) / 12) ((month t - 1) mod 12 + 1) 1)
               (day t - 1) = t) by (apply make_day_fields; auto).
  unfold add_days in Ht |- *.
  destruct (Z.leb_spec 0 (day t - 1)); [|lia]. rewrite Ht. reflexivity.
Qed.

Lemma digit_not_ws c : is_digit c = true -> is_js_ws c = false.
Proof.
  unfold is_digit; intros H. apply andb_prop in H as [H1 H2].
  apply Z.leb_le in H1; apply Z.leb_le in H2.
  destruct (is_js_ws c) eqn:E; [|reflexivity].
  unfold is_js_ws in E. apply existsb_exists in E as [x [Hin Hx]].
  apply Z.eqb_eq in Hx; subst x.
  simpl in Hin; repeat (destruct Hin as [Hin|Hin]; [lia|]); contradiction.
Qed.

Lemma trim_start_digits s : all_digits s -> trim_start s = s.
Proof.
  intros H; destruct s as [|c s]; [reflexivity|]. inversion H; subst.
  simpl. rewrite digit_not_ws by auto. reflexivity.
Qed.

Lemma trim_digits s : all_digits s -> trim s = s.
Proof.
  intros H; unfold trim. rewrite (trim_start_digits s H).
  rewrite trim_start_digits by (apply Forall_rev; auto).
  apply rev_involutive.
Qed.

Lemma js_Number_digits s : all_digits s -> js_Number s = digits_value 0 s.
Proof.
  intros H; unfold js_Number; rewrite trim_digits by auto.
  destruct s as [|c s]; [reflexivity|]. inversion H; subst.
  unfold is_digit in *. apply andb_prop in H2 as [H1 H2].
  apply Z.leb_le in H1; apply Z.leb_le in H2.
  assert (c = 48 \/ c = 49 \/ c = 50 \/ c = 51 \/ c = 52 \/ c = 53 \/ c = 54 \/ c = 55
          \/ c = 56 \/ c = 57) by lia.
  repeat match goal with Hc : _ \/ _ |- _ => destruct Hc as [Hc|Hc] end; subst c;
    reflexivity.
Qed.

Lemma digits_value_app acc l1 l2 :
  digits_value acc (l1 ++ l2) =
  match digits_value acc l1 with Some v => digits_value v l2 | None => None end.
Proof.
  revert acc; induction l1 as [|c l1 IH]; intros acc; simpl; [reflexivity|].
  destruct (is_digit c); auto.
Qed.

Lemma is_digit_code n : 0 <= n < 10 -> is_digit (48 + n) = true.
Proof. intros H; unfold is_digit; apply andb_true_intro; split; apply Z.leb_le; lia. Qed.

Lemma dec_fuel_spec f n : 0 <= n -> (Z.to_nat n < f)%nat ->
  all_digits (dec_fuel f n) /\ dec_fuel f n <> [] /\ digits_value 0 (dec_fuel f n) = Some n.
Proof.
  revert n; induction f as [|f IH]; intros n Hn Hf; [lia|].
  cbn [dec_fuel]. destruct (Z.ltb_spec n 10).
  - split; [constructor; [apply is_digit_code; lia|constructor]|].
    split; [discriminate|]. cbn [digits_value]. rewrite is_digit_code by lia. f_equal; lia.
  - pose proof (Z.div_mod n 10 ltac:(lia)); pose proof (Z.mod_pos_bound n 10 ltac:(lia)).
    destruct (IH (n / 10)) as [Hd [_ Hv]]; [lia|lia|].
    split; [apply Forall_app; split; auto; constructor; [apply is_digit_code; lia|constructor]|].
    split; [destruct (dec_fuel f (n / 10)); discriminate|].
    rewrite digits_value_app, Hv. cbn [digits_value]. rewrite is_digit_code by lia.
    f_equal; lia.
Qed.

Lemma dec_spec n : 0 <= n -> all_digits (dec n) /\ digits_value 0 (dec n) = Some n.
Proof. intros H; destruct (dec_fuel_spec (S (Z.to_nat n)) n H) as [? [? ?]]; auto; lia. Qed.

Lemma digits_value_zeros k l : digits_value 0 (List.repeat 48 k ++ l) = digits_value 0 l.
Proof. induction k as [|k IH]; simpl; auto. Qed.

Lemma padStart2_digits s : all_digits s -> all_digits (padStart2 s).
Proof.
  intros H; unfold padStart2; apply Forall_app; split; auto.
  apply Forall_forall; intros x Hx. apply repeat_spec in Hx; subst; reflexivity.
Qed.

Lemma js_String_nonneg z : 0 <= z -> js_String z = dec z.
Proof. intros H; unfold js_String; destruct (Z.ltb_spec z 0); [lia|reflexivity]. Qed.

(** [Number(String(n).padStart(2, '0'))] and [Number(String(n))] give back [n]. *)
Lemma Number_padStart2 n : 0 <= n -> js_Number (padStart2 (js_String n)) = Some n.
Proof.
  intros H; rewrite js_String_nonneg by auto. destruct (dec_spec n H).
  rewrite js_Number_digits by (apply padStart2_digits; auto).
  unfold padStart2; rewrite digits_value_zeros; auto.
Qed.

Lemma Number_String n : 0 <= n -> js_Number (js_String n) = Some n.
Proof.
  intros H; rewrite js_String_nonneg by auto. destruct (dec_spec n H).
  rewrite js_Number_digits by auto. auto.
Qed.

Lemma split_aux_no_sep sep l cur :
  Forall (fun c => c <> sep) l -> split_aux sep cur l = [rev cur ++ l].
Proof.
  revert cur; induction l as [|c l IH]; intros cur H; simpl.
  - rewrite app_nil_r; reflexivity.
  - inversion H; subst. destruct (Z.eqb_spec c sep); [contradiction|].
    rewrite IH by auto. simpl. rewrite <- app_assoc. reflexivity.
Qed.

Lemma split_aux_sep sep l cur r :
  Forall (fun c => c <> sep) l ->
  split_aux sep cur (l ++ sep :: r) = (rev cur ++ l) :: split_aux sep [] r.
Proof.
  revert cur; induction l as [|c l IH]; intros cur H; simpl.
  - rewrite Z.eqb_refl, app_nil_r; reflexivity.
  - inversion H; subst. destruct (Z.eqb_spec c sep); [contradiction|].
    rewrite IH by auto. simpl. rewrite <- app_assoc. reflexivity.
Qed.

Lemma digits_no_slash s : all_digits s -> Forall (fun c => c <> 47) s.
Proof.
  apply Forall_impl; intros c H. unfold is_digit in H.
  apply andb_prop in H as [H1 _]; apply Z.leb_le in H1; lia.
Qed.

Lemma split_three a b c :
  all_digits a -> all_digits b -> all_digits c ->
  split_on 47 (a ++ [47] ++ b ++ [47] ++ c) = [a; b; c].
Proof.
  intros Ha Hb Hc; unfold split_on; simpl.
  rewrite split_aux_sep by (apply digits_no_slash; auto).
  rewrite split_aux_sep by (apply digits_no_slash; auto).
  rewrite split_aux_no_sep by (apply digits_no_slash; auto).
  reflexivity.
Qed.

Lemma fmtBR_digits t : 0 <= year t -> 0 <= month t -> 0 <= day t ->
  all_digits (padStart2 (js_String (day t))) /\ all_digits (padStart2 (js_String (month t)))
  /\ all_digits (js_String (year t)).
Proof.
  intros Hy Hm Hd.
  rewrite !js_String_nonneg by auto.
  split; [apply padStart2_digits, dec_spec; auto|].
  split; [apply padStart2_digits, dec_spec; auto|].
  apply dec_spec; auto.
Qed.

(** Parsing the [dd/mm/yyyy] string of a date gives the date back (for
    years from 100 on, outside the two-digit range of [new Date]). *)
Lemma parse_fmtBR t : valid_date t -> 100 <= year t -> parseBRDate (fmtBR t) = Some t.
Proof.
  intros Hv Hy. pose proof Hv as [Hm Hd].
  destruct (fmtBR_digits t) as [D1 [D2 D3]]; try lia.
  unfold parseBRDate, fmtBR. rewrite split_three by auto. simpl map.
  rewrite !Number_padStart2, Number_String by lia.
  unfold new_Date. replace ((0 <=? year t) && (year t <=? 99)) with false
    by (symmetry; apply andb_false_intro2; apply Z.leb_gt; lia).
  rewrite make_day_fields; auto.
Qed.

Lemma dec_fuel_lt10 f n : n < 10 -> dec_fuel (S f) n = [48 + n].
Proof. intros H; cbn [dec_fuel]; rewrite (proj2 (Z.ltb_lt n 10) H); reflexivity. Qed.

Lemma dec_fuel_ge10 f n : 10 <= n -> dec_fuel (S f) n = dec_fuel f (n / 10) ++ [48 + n mod 10].
Proof. intros H; cbn [dec_fuel]; rewrite (proj2 (Z.ltb_ge n 10) H); reflexivity. Qed.

Lemma pad_two n : 0 <= n <= 99 -> padStart2 (js_String n) = two n.
Proof.
  intros H; rewrite js_String_nonneg by lia. unfold dec, two.
  destruct (Z.ltb_spec n 10).
  - rewrite dec_fuel_lt10 by lia. rewrite Z.div_small, Z.mod_small by lia.
    unfold padStart2; simpl. f_equal. 
  - rewrite dec_fuel_ge10 by lia.
    destruct (Z.to_nat n) as [|k] eqn:E; [lia|].
    pose proof (Z.div_mod n 10 ltac:(lia)); pose proof (Z.mod_pos_bound n 10 ltac:(lia)).
    rewrite dec_fuel_lt10 by lia. reflexivity.
Qed.

Lemma String_four n : 1000 <= n <= 9999 -> js_String n = four n.
Proof.
  intros H; rewrite js_String_nonneg by lia. unfold dec, four.
  assert (E1 : n / 10 / 10 = n / 100) by (rewrite Z.div_div by lia; reflexivity).
  assert (E2 : n / 100 / 10 = n / 1000) by (rewrite Z.div_div by lia; reflexivity).
  pose proof (Z.div_mod n 10 ltac:(lia)); pose proof (Z.mod_pos_bound n 10 ltac:(lia)).
  pose proof (Z.div_mod n 100 ltac:(lia)); pose proof (Z.mod_pos_bound n 100 ltac:(lia)).
  pose proof (Z.div_mod n 1000 ltac:(lia)); pose proof (Z.mod_pos_bound n 1000 ltac:(lia)).
  assert (exists k, Z.to_nat n = S (S (S k))) as [k Hk] by (exists (Z.to_nat n - 3)%nat; lia).
  rewrite Hk.
  rewrite dec_fuel_ge10 by lia. rewrite dec_fuel_ge10 by lia. rewrite E1.
  rewrite dec_fuel_ge10 by lia. rewrite E2. rewrite dec_fuel_lt10 by lia.
  reflexivity.
Qed.

Lemma canonical_br_fmt y m d :
  1 <= m <= 12 -> 1 <= d <= 31 -> 1000 <= y <= 9999 ->
  canonical_br y m d = fmtBR (mkDate y m d).
Proof.
  intros Hm Hd Hy. unfold canonical_br, fmtBR; simpl.
  rewrite !pad_two, String_four by lia. reflexivity.
Qed.

Lemma gerar_loop_spec fim f cur datas :
  valid_date cur -> Z.of_nat f = day_number fim - day_number cur + 1 ->
  gerar_loop f fim cur datas
  = datas ++ map fmtBR (filter (fun t => isWeekdayBR (fmtBR t)) (day_seq cur f)).
Proof.
  revert cur datas; induction f as [|f IH]; intros cur datas Hv Hf.
  - simpl. rewrite app_nil_r. reflexivity.
  - cbn [gerar_loop day_seq]. destruct (Z.leb_spec (day_number cur) (day_number fim)); [|lia].
    rewrite setDate_succ by auto.
    rewrite IH; [|apply next_day_valid; auto|rewrite next_day_number by auto; lia].
    cbn [filter]. destruct (isWeekdayBR (fmtBR cur)); simpl; [|reflexivity].
    rewrite <- app_assoc. reflexivity.
Qed.

(** The fuel is exactly the number of iterations of [while (current <= fim)]:
    more fuel gives the same result. *)
Lemma gerar_loop_fuel fim f e cur datas :
  valid_date cur -> Z.of_nat f = day_number fim - day_number cur + 1 ->
  gerar_loop (f + e) fim cur datas = gerar_loop f fim cur datas.
Proof.
  revert cur datas; induction f as [|f IH]; intros cur datas Hv Hf.
  - simpl. destruct e as [|e]; simpl; [reflexivity|].
    destruct (Z.leb_spec (day_number cur) (day_number fim)); [lia|reflexivity].
  - cbn [Nat.add gerar_loop]. destruct (day_number cur <=? day_number fim); [|reflexivity].
    rewrite setDate_succ by auto.
    apply IH; [apply next_day_valid; auto|rewrite next_day_number by auto; lia].
Qed.

Lemma gerar_spec hoje :
  valid_date (gerar_inicio hoje) ->
  gerarDatasProximosDoisMeses hoje
  = map fmtBR (filter (fun t => isWeekdayBR (fmtBR t))
      (day_seq (gerar_inicio hoje)
         (Z.to_nat (day_number (gerar_fim hoje) - day_number (gerar_inicio hoje) + 1)))).
Proof.
  intros Hv. unfold gerarDatasProximosDoisMeses.
  destruct (Z.leb_spec (day_number (gerar_fim hoje) - day_number (gerar_inicio hoje) + 1) 0).
  - replace (Z.to_nat _) with O by lia. reflexivity.
  - rewrite gerar_loop_spec; auto. lia.
Qed.

Lemma day_seq_in cur n t : valid_date cur -> In t (day_seq cur n) ->
  valid_date t /\ day_number cur <= day_number t < day_number cur + Z.of_nat n
  /\ year cur <= year t.
Proof.
  revert cur; induction n as [|n IH]; intros cur Hv Hin; simpl in Hin; [contradiction|].
  destruct Hin as [<-|Hin]; [split; [auto|split; lia]|].
  destruct (IH (next_day cur)) as [Ht [Hb Hy]]; auto using next_day_valid.
  rewrite next_day_number in Hb by auto. pose proof (next_day_year cur).
  split; [auto|split; lia].
Qed.

Lemma day_seq_sorted cur n : valid_date cur ->
  StronglySorted (fun a b => day_number a < day_number b) (day_seq cur n).
Proof.
  revert cur; induction n as [|n IH]; intros cur Hv; simpl; constructor.
  - apply IH, next_day_valid; auto.
  - apply Forall_forall; intros t Hin.
    destruct (day_seq_in (next_day cur) n t) as [_ [Hb _]]; auto using next_day_valid.
    rewrite next_day_number in Hb by auto. lia.
Qed.

Lemma iter_next_year n t : year t <= year (iter_n n next_day t).
Proof.
  induction n as [|n IH]; simpl; [lia|]. pose proof (next_day_year (iter_n n next_day t)). lia.
Qed.

Lemma gerar_inicio_props hoje : valid_date hoje ->
  valid_date (gerar_inicio hoje) /\ day_number (gerar_inicio hoje) = day_number hoje + 7
  /\ year hoje <= year (gerar_inicio hoje).
Proof.
  intros Hv. pose proof Hv as [Hm Hd].
  unfold gerar_inicio, setDate, make_day.
  rewrite Z.div_small, Z.mod_small by lia.
  replace (year hoje + 0) with (year hoje) by lia.
  replace (month hoje - 1 + 1) with (month hoje) by lia.
  assert (Hb : valid_date (mkDate (year hoje) (month hoje) 1)).
  { pose proof (days_in_month_bounds (year hoje) (month hoje)); split; simpl; lia. }
  destruct (add_days_valid _ (day hoje + 7 - 1) Hb) as [Hv' Hn].
  split; [auto|split].
  - rewrite Hn. unfold day_number; simpl. lia.
  - unfold add_days. destruct (Z.leb_spec 0 (day hoje + 7 - 1)); [|lia].
    apply (iter_next_year _ (mkDate (year hoje) (month hoje) 1)).
Qed.

Lemma filter_map_sorted (p : date -> bool) l :
  Forall (fun t => valid_date t /\ 100 <= year t) l ->
  StronglySorted (fun a b => day_number a < day_number b) l ->
  StronglySorted br_before (map fmtBR (filter p l)).
Proof.
  induction l as [|a l IH]; intros Hf Hs; simpl; [constructor|].
  inversion Hf as [|? ? [Hva Hya] Hf']; subst. inversion Hs; subst.
  destruct (p a); simpl; [|auto].
  constructor; [auto|].
  apply Forall_map, Forall_forall. intros b Hb. apply filter_In in Hb as [Hb _].
  rewrite Forall_forall in Hf', H2. destruct (Hf' b Hb) as [Hvb Hyb].
  exists a, b. rewrite !parse_fmtBR by auto. split; [auto|split; [auto|]]. apply H2; auto.
Qed.

Lemma sorted_nodup l : StronglySorted br_before l -> NoDup l.
Proof.
  induction l as [|a l IH]; intros Hs; constructor; inversion Hs; subst; auto.
  intros Hin. rewrite Forall_forall in H2. destruct (H2 a Hin) as [ta [tb [Ha [Hb Hab]]]].
  rewrite Ha in Hb. injection Hb as ->. lia.
Qed.

(* ================================================================== *)
(** * Lemmas on the polling, retry, extraction and CSV code *)

(** ** [esperarPautaEstabilizar] *)

Lemma stab_at_succ counts j :
  stab_at counts (S j) =
  (counts (snd (stab_at counts j)),
   if counts (snd (stab_at counts j)) =? fst (stab_at counts j)
   then S (S (snd (stab_at counts j))) else S (snd (stab_at counts j))).
Proof.
  cbn [stab_at]. destruct (stab_at counts j) as [last k]; simpl.
  destruct (counts k =? last); reflexivity.
Qed.

Lemma stab_loop_step counts f j :
  stab_loop counts (S f) j (fst (stab_at counts j)) (snd (stab_at counts j)) =
  if stab_confirms_b counts j then Stable j
  else stab_loop counts f (S j) (fst (stab_at counts (S j))) (snd (stab_at counts (S j))).
Proof.
  rewrite stab_at_succ. unfold stab_confirms_b.
  destruct (stab_at counts j) as [last k]; simpl.
  destruct (counts k =? last); simpl; [|reflexivity].
  destruct (counts (S k) =? counts k); reflexivity.
Qed.

Lemma stab_confirms_b_spec counts j :
  stab_confirms_b counts j = true <-> stab_confirms counts j.
Proof.
  unfold stab_confirms_b, stab_confirms. destruct (stab_at counts j) as [last k].
  rewrite andb_true_iff, !Z.eqb_eq. tauto.
Qed.

Lemma stab_loop_sound counts f j :
  match stab_loop counts f j (fst (stab_at counts j)) (snd (stab_at counts j)) with
  | Stable i => (j <= i < j + f)%nat /\ stab_confirms counts i /\
                forall j', (j <= j' < i)%nat -> ~ stab_confirms counts j'
  | Exhausted => forall j', (j <= j' < j + f)%nat -> ~ stab_confirms counts j'
  end.
Proof.
  revert j; induction f as [|f IH]; intros j.
  - simpl. intros j' Hj'; lia.
  - rewrite stab_loop_step. destruct (stab_confirms_b counts j) eqn:Hc.
    + apply stab_confirms_b_spec in Hc. split; [lia|split; [auto|intros; lia]].
    + specialize (IH (S j)).
      assert (Hn : ~ stab_confirms counts j)
        by (rewrite <- stab_confirms_b_spec; congruence).
      destruct (stab_loop counts f (S j) _ _) as [i|].
      * destruct IH as [Hi [Hci Hfirst]]. split; [lia|split; [auto|]].
        intros j' Hj'. destruct (Nat.eq_dec j' j); [subst; auto|apply Hfirst; lia].
      * intros j' Hj'. destruct (Nat.eq_dec j' j); [subst; auto|apply IH; lia].
Qed.

Lemma stab_loop_never counts :
  (forall k, counts k <> counts (S k)) ->
  forall f i last k, stab_loop counts f i last k = Exhausted.
Proof.
  intros H f; induction f as [|f IH]; intros i last k; simpl; [reflexivity|].
  destruct (counts k =? last); [|apply IH].
  destruct (Z.eqb_spec (counts (S k)) (counts k)) as [e|_]; [|apply IH].
  exfalso; apply (H k); auto.
Qed.

(** ** [retryOperation] *)

Section RetryLemmas.
Context {A E : Type} (op : nat -> result A E) (n : nat) (d : Z).

Lemma retry_from_success : forall f a j x,
  (a + f = S n)%nat -> (a <= j <= n)%nat -> op j = Ok x ->
  (forall i, (a <= i < j)%nat -> exists e, op i = Err e) ->
  retry_from op n d a f = (Returned x, retried a (j - a) d ++ [Attempt j]).
Proof.
  induction f as [|f IH]; intros a j x Hf Hj Hx Hbefore; [lia|].
  simpl. destruct (Nat.eq_dec a j) as [<-|Hne].
  - rewrite Hx. replace (a - a)%nat with O by lia. reflexivity.
  - destruct (Hbefore a ltac:(lia)) as [e He]. rewrite He.
    replace (Nat.eqb a n) with false by (symmetry; apply Nat.eqb_neq; lia).
    rewrite (IH (S a) j x) by (auto || lia || (intros; apply Hbefore; lia)).
    replace (j - a)%nat with (S (j - S a)) by lia. reflexivity.
Qed.

Lemma retry_from_failure : forall f a,
  (a + f = S n)%nat -> (1 <= a <= n)%nat ->
  (forall i, (a <= i <= n)%nat -> exists e, op i = Err e) ->
  exists e, op n = Err e /\
    retry_from op n d a f = (Thrown e, retried a (n - a) d ++ [Attempt n; Warn n]).
Proof.
  induction f as [|f IH]; intros a Hf Ha Hall; [lia|].
  simpl. destruct (Hall a ltac:(lia)) as [e He]. rewrite He.
  destruct (Nat.eqb_spec a n) as [<-|Hne].
  - exists e. split; [auto|]. replace (a - a)%nat with O by lia. reflexivity.
  - destruct (IH (S a)) as [e' [He' Hr]]; [lia|lia|intros; apply Hall; lia|].
    exists e'. split; [auto|]. rewrite Hr.
    replace (n - a)%nat with (S (n - S a)) by lia. reflexivity.
Qed.

Lemma retry_from_thrown : forall f a e,
  (a + f = S n)%nat ->
  fst (retry_from op n d a f) = Thrown e ->
  op n = Err e /\ forall i, (a <= i <= n)%nat -> exists e', op i = Err e'.
Proof.
  induction f as [|f IH]; intros a e Hf Ht; [discriminate|].
  simpl in Ht. destruct (op a) as [x|e0] eqn:Ha; [discriminate|].
  destruct (Nat.eqb_spec a n) as [<-|Hne].
  - injection Ht as <-. split; [auto|]. intros i Hi. replace i with a by lia. eauto.
  - destruct (retry_from op n d (S a) f) as [o tr] eqn:Hr. simpl in Ht. subst o.
    destruct (IH (S a) e ltac:(lia)) as [Hn Hall]; [rewrite Hr; reflexivity|].
    split; [auto|]. intros i Hi. destruct (Nat.eq_dec i a) as [->|]; [eauto|apply Hall; lia].
Qed.

End RetryLemmas.

(** ** [extrairProcessosDaPauta] *)

Lemma nth_parte_kth k l :
  parte (filterBoolean (map normText l)) k = kth_nonempty k l.
Proof.
  unfold parte, filterBoolean. revert k; induction l as [|s l IH]; intros k.
  - destruct k; reflexivity.
  - simpl. destruct (is_empty (normText s)); simpl; [apply IH|].
    destruct k; [reflexivity|apply IH].
Qed.

(** ** [csvEscape] and [csv_read] *)

Lemma csv_end_semi st fld rec recs r : st <> Quoted ->
  csv_go st fld rec recs (59 :: r) = csv_go FieldStart [] (rev fld :: rec) recs r.
Proof. destruct st; try congruence; reflexivity. Qed.

Lemma csv_end_nl st fld rec recs r : st <> Quoted ->
  csv_go st fld rec recs (10 :: r) = csv_go FieldStart [] [] (rev (rev fld :: rec) :: recs) r.
Proof. destruct st; try congruence; reflexivity. Qed.

Lemma csv_end_eof st fld rec recs : st <> Quoted ->
  csv_go st fld rec recs [] = rev (rev (rev fld :: rec) :: recs).
Proof. destruct st; try congruence; reflexivity. Qed.

Lemma csv_unquoted s : forall fld rec recs r,
  existsb csv_special s = false ->
  csv_go Unquoted fld rec recs (s ++ r) = csv_go Unquoted (rev s ++ fld) rec recs r.
Proof.
  induction s as [|c s IH]; intros fld rec recs r Hs; [reflexivity|].
  simpl in Hs. apply orb_false_iff in Hs as [Hc Hs]. unfold csv_special in Hc.
  rewrite !orb_false_iff in Hc. destruct Hc as [[[H59 H34] H10] _].
  simpl. rewrite H59, H10, H34, IH by auto. simpl. rewrite <- app_assoc. reflexivity.
Qed.

Lemma csv_quoted s : forall fld rec recs r,
  csv_go Quoted fld rec recs (replace_all 34 [34; 34] s ++ 34 :: r) =
  csv_go QuoteInQuoted (rev s ++ fld) rec recs r.
Proof.
  induction s as [|c s IH]; intros fld rec recs r; [reflexivity|].
  simpl. destruct (Z.eqb_spec c 34) as [->|Hc]; simpl.
  - rewrite IH. simpl. rewrite <- app_assoc. reflexivity.
  - replace (c =? 34) with false by (symmetry; apply Z.eqb_neq; auto).
    rewrite IH. rewrite <- app_assoc. reflexivity.
Qed.

Lemma csv_field v rest rec recs : exists st, st <> Quoted /\
  csv_go FieldStart [] rec recs (csvEscape v ++ rest) =
  csv_go st (rev (cell_value v)) rec recs rest.
Proof.
  destruct v as [s|]; [|exists FieldStart; split; [discriminate|reflexivity]].
  unfold csvEscape. cbn [cell_value]. destruct (existsb csv_special s) eqn:Hs.
  - exists QuoteInQuoted. split; [discriminate|].
    rewrite <- !app_assoc. simpl. rewrite csv_quoted, app_nil_r. reflexivity.
  - destruct s as [|c s]; [exists FieldStart; split; [discriminate|reflexivity]|].
    exists Unquoted. split; [discriminate|].
    simpl in Hs. apply orb_false_iff in Hs as [Hc Hs]. unfold csv_special in Hc.
    rewrite !orb_false_iff in Hc. destruct Hc as [[[H59 H34] H10] _].
    simpl. rewrite H59, H10, H34, csv_unquoted by auto. reflexivity.
Qed.

Lemma csv_line_nl vs : vs <> [] -> forall rec recs r,
  csv_go FieldStart [] rec recs (join [59] (map csvEscape vs) ++ 10 :: r) =
  csv_go FieldStart [] [] (rev (rev (map cell_value vs) ++ rec) :: recs) r.
Proof.
  induction vs as [|v vs IH]; intros Hne rec recs r; [congruence|].
  destruct vs as [|v' vs'].
  - simpl. destruct (csv_field v (10 :: r) rec recs) as [st [Hst ->]].
    rewrite csv_end_nl, rev_involutive by auto. reflexivity.
  - change (join [59] (map csvEscape (v :: v' :: vs')))
      with (csvEscape v ++ [59] ++ join [59] (map csvEscape (v' :: vs'))).
    rewrite <- !app_assoc. destruct (csv_field v ([59] ++ join [59] (map csvEscape (v' :: vs')) ++ 10 :: r) rec recs) as [st [Hst ->]].
    cbn [app]. rewrite csv_end_semi, IH, rev_involutive by (auto || discriminate).
    simpl. rewrite <- !app_assoc. reflexivity.
Qed.

Lemma csv_line_eof vs : vs <> [] -> forall rec recs,
  csv_go FieldStart [] rec recs (join [59] (map csvEscape vs)) =
  rev (rev (rev (map cell_value vs) ++ rec) :: recs).
Proof.
  induction vs as [|v vs IH]; intros Hne rec recs; [congruence|].
  destruct vs as [|v' vs'].
  - simpl. pose proof (csv_field v [] rec recs) as [st [Hst Hf]].
    rewrite app_nil_r in Hf. rewrite Hf, csv_end_eof, rev_involutive by auto. reflexivity.
  - change (join [59] (map csvEscape (v :: v' :: vs')))
      with (csvEscape v ++ [59] ++ join [59] (map csvEscape (v' :: vs'))).
    destruct (csv_field v ([59] ++ join [59] (map csvEscape (v' :: vs'))) rec recs) as [st [Hst ->]].
    cbn [app]. rewrite csv_end_semi, IH, rev_involutive by (auto || discriminate).
    simpl. rewrite <- !app_assoc. reflexivity.
Qed.

Lemma csv_lines lines : lines <> [] -> Forall (fun vs => vs <> []) lines -> forall recs,
  csv_go FieldStart [] [] recs (join [10] (map (fun vs => join [59] (map csvEscape vs)) lines)) =
  rev recs ++ map (map cell_value) lines.
Proof.
  induction lines as [|vs lines IH]; intros Hne Hall recs; [congruence|].
  inversion Hall as [|? ? Hvs Hall']; subst.
  destruct lines as [|vs' lines'].
  - simpl. rewrite csv_line_eof by auto. rewrite app_nil_r, rev_involutive. reflexivity.
  - change (join [10] (map (fun vs => join [59] (map csvEscape vs)) (vs :: vs' :: lines')))
      with (join [59] (map csvEscape vs) ++ [10] ++
            join [10] (map (fun vs => join [59] (map csvEscape vs)) (vs' :: lines'))).
    simpl. rewrite csv_line_nl, IH by (auto || discriminate).
    rewrite app_nil_r, rev_involutive. simpl. rewrite <- app_assoc. reflexivity.
Qed.

(** ** [navegarParaMes] *)

Section NavLemmas.
Variable W : Type.
Variable header : W -> option (Z * Z).
Variables click_next click_prev : W -> option W.
Hypothesis header_month : forall w y mi, header w = Some (y, mi) -> 0 <= mi < 12.
Variables ty tm : Z.
Hypothesis tm_range : 0 <= tm < 12.

Lemma nav_loop_props : forall n w,
  let '(r, tr) := nav_loop W header click_next click_prev ty tm n w in
  Forall (nav_ok header ty tm) tr /\
  (List.length tr <= n)%nat /\
  (forall wf, r = NavDone true wf -> header wf = Some (ty, tm)) /\
  (forall wf, r = NavDone false wf -> List.length tr = n).
Proof.
  induction n as [|n IH]; intros w.
  - simpl. split; [constructor|split; [lia|split; intros wf H; [discriminate|reflexivity]]].
  - cbn [nav_loop]. destruct (header w) as [[y mi]|] eqn:Hw.
    + destruct ((y =? ty) && (mi =? tm)) eqn:Hs.
      * apply andb_true_iff in Hs as [Hy Hm]. apply Z.eqb_eq in Hy, Hm. subst.
        split; [constructor|split; [simpl; lia|split; intros wf H; [injection H as <-; auto|discriminate]]].
      * assert (Hk : y * 12 + mi <> ty * 12 + tm).
        { pose proof (header_month _ _ _ Hw). intros Hk.
          assert (y = ty /\ mi = tm) as [-> ->] by lia. rewrite !Z.eqb_refl in Hs. discriminate. }
        assert (Hd : nav_ok header ty tm (w, if ty * 12 + tm >? y * 12 + mi then NavNext else NavPrev)).
        { unfold nav_ok; cbn [fst snd]; rewrite Hw. split; [auto|].
          destruct (Z.gtb_spec (ty * 12 + tm) (y * 12 + mi));
            split; split; intros; (discriminate || lia || reflexivity). }
        destruct (match (if ty * 12 + tm >? y * 12 + mi then NavNext else NavPrev) with
                  | NavNext => click_next w | NavPrev => click_prev w end) as [w'|].
        -- specialize (IH w'). destruct (nav_loop W header click_next click_prev ty tm n w') as [r tr].
           destruct IH as [IH1 [IH2 [IH3 IH4]]].
           split; [constructor; auto|split; [simpl; lia|split; [auto|intros wf Hr; simpl; rewrite (IH4 wf Hr); reflexivity]]].
        -- split; [constructor; auto|split; [simpl; lia|split; intros wf Hr; discriminate]].
    + specialize (IH (match click_next w with Some w' => w' | None => w end)).
      destruct (nav_loop W header click_next click_prev ty tm n _) as [r tr].
      destruct IH as [IH1 [IH2 [IH3 IH4]]].
      split; [constructor; [unfold nav_ok; cbn [fst snd]; rewrite Hw; reflexivity|auto]|].
      split; [cbn [List.length]; lia|split; [auto|intros wf Hr; cbn [List.length]; rewrite (IH4 wf Hr); reflexivity]].
Qed.
End NavLemmas.

Lemma key_same (k ty tm : Z) : 0 <= tm < 12 ->
  ((k / 12 =? ty) && (k mod 12 =? tm)) = (k =? ty * 12 + tm).
Proof.
  intros Htm. pose proof (Z.div_mod k 12 ltac:(lia)). pose proof (Z.mod_pos_bound k 12 ltac:(lia)).
  destruct (Z.eqb_spec (k / 12) ty); destruct (Z.eqb_spec (k mod 12) tm);
    destruct (Z.eqb_spec k (ty * 12 + tm)); simpl; auto; exfalso; lia.
Qed.

Lemma key_key (k : Z) : k / 12 * 12 + k mod 12 = k.
Proof. pose proof (Z.div_mod k 12 ltac:(lia)). lia. Qed.

Lemma nav_key_props ty tm (Htm : 0 <= tm < 12) : forall n c,
  let '(r, tr) := nav_loop Z key_header key_next key_prev ty tm n c in
  map fst tr = zseq c (Z.sgn (ty * 12 + tm - c)) (List.length tr) /\
  Z.of_nat (List.length tr) = Z.min (Z.of_nat n) (Z.abs (ty * 12 + tm - c)) /\
  r = NavDone (Z.abs (ty * 12 + tm - c) <? Z.of_nat n)
              (c + Z.sgn (ty * 12 + tm - c) * Z.of_nat (List.length tr)).
Proof.
  induction n as [|n IH]; intros c.
  - cbn [nav_loop]. split; [reflexivity|split; [simpl; lia|]].
    f_equal; [symmetry; apply Z.ltb_ge; simpl; lia|simpl; lia].
  - cbn [nav_loop]. unfold key_header at 1. cbn iota. rewrite key_same by auto.
    set (t := ty * 12 + tm). destruct (Z.eqb_spec c t) as [Ec|Ec].
    + split; [reflexivity|]. rewrite Ec, Z.sub_diag. cbn [Z.sgn Z.abs List.length].
      split; [lia|]. f_equal; try (symmetry; apply Z.ltb_lt); lia.
    + rewrite key_key. destruct (Z.gtb_spec t c) as [Hg|Hg].
      * unfold key_next at 1. specialize (IH (c + 1)).
        destruct (nav_loop Z key_header key_next key_prev ty tm n (c + 1)) as [r tr].
        destruct IH as [IH1 [IH2 IH3]]. change (ty * 12 + tm) with t in IH1, IH2, IH3.
        rewrite (Z.sgn_pos (t - c)) by lia. cbn [map fst List.length zseq].
        destruct (Z.eq_dec (t - c) 1) as [E1|E1].
        -- assert (Hl : List.length tr = O) by (replace (t - (c + 1)) with 0 in IH2 by lia; lia).
           destruct tr; [|discriminate]. split; [reflexivity|].
           replace (t - (c + 1)) with 0 in IH3 by lia. rewrite IH3. cbn [List.length].
           split; [lia|]. f_equal; [|lia].
           destruct (Z.ltb_spec 0 (Z.of_nat n)); destruct (Z.ltb_spec (Z.abs (t - c)) (Z.of_nat (S n))); lia.
        -- rewrite (Z.sgn_pos (t - (c + 1))) in IH1, IH3 by lia.
           split; [rewrite IH1; reflexivity|]. split; [lia|]. rewrite IH3. f_equal; [|lia].
           destruct (Z.ltb_spec (Z.abs (t - (c + 1))) (Z.of_nat n));
             destruct (Z.ltb_spec (Z.abs (t - c)) (Z.of_nat (S n))); lia.
      * unfold key_prev at 1. specialize (IH (c - 1)).
        destruct (nav_loop Z key_header key_next key_prev ty tm n (c - 1)) as [r tr].
        destruct IH as [IH1 [IH2 IH3]]. change (ty * 12 + tm) with t in IH1, IH2, IH3.
        rewrite (Z.sgn_neg (t - c)) by lia. cbn [map fst List.length zseq].
        destruct (Z.eq_dec (t - c) (-1)) as [E1|E1].
        -- assert (Hl : List.length tr = O) by (replace (t - (c - 1)) with 0 in IH2 by lia; lia).
           destruct tr; [|discriminate]. split; [reflexivity|].
           replace (t - (c - 1)) with 0 in IH3 by lia. rewrite IH3. cbn [List.length].
           split; [lia|]. f_equal; [|lia].
           destruct (Z.ltb_spec 0 (Z.of_nat n)); destruct (Z.ltb_spec (Z.abs (t - c)) (Z.of_nat (S n))); lia.
        -- rewrite (Z.sgn_neg (t - (c - 1))) in IH1, IH3 by lia.
           split; [rewrite IH1; reflexivity|]. split; [lia|]. rewrite IH3. f_equal; [|lia].
           destruct (Z.ltb_spec (Z.abs (t - (c - 1))) (Z.of_nat n));
             destruct (Z.ltb_spec (Z.abs (t - c)) (Z.of_nat (S n))); lia.
Qed.

Lemma zseq_distance (t s : Z) (Hs : s * s = 1) : forall len c,
  Z.of_nat len <= s * (t - c) ->
  map (fun k => Z.abs (t - k)) (zseq c s len) = zseq (s * (t - c)) (-1) len.
Proof.
  induction len as [|len IH]; intros c Hl; [reflexivity|].
  cbn [zseq map]. f_equal.
  - assert (s = 1 \/ s = -1) as [-> | ->] by nia; lia.
  - rewrite IH by nia. f_equal. nia.
Qed.

(** ** [irAteDataPorBotoes] and [selecionarDataComConfirmacao] *)

Lemma shows_spec alvoBR raw :
  shows alvoBR raw = true <-> raw <> [] /\ includes raw alvoBR = true.
Proof.
  unfold shows. destruct raw as [|c raw]; cbn [is_empty negb andb].
  - split; [discriminate|intros [H _]; congruence].
  - split; [intros H; split; [discriminate|exact H]|intros [_ H]; exact H].
Qed.

Lemma parseBRDate_empty : parseBRDate [] = None.
Proof. reflexivity. Qed.

Lemma choose_dir_spec hasPrev alvoBR raw :
  choose_dir hasPrev (br_time alvoBR) raw = Bwd <->
  hasPrev = true /\ exists ta tc, parseBRDate alvoBR = Some ta /\
    parseBRDate (extrairDataBR raw) = Some tc /\ day_number ta < day_number tc.
Proof.
  unfold choose_dir, br_time.
  destruct (is_empty (extrairDataBR raw)) eqn:He; cbn [negb].
  - destruct (extrairDataBR raw); [|discriminate]. rewrite parseBRDate_empty.
    split; [discriminate|intros [_ [ta [tc [_ [H _]]]]]; discriminate].
  - destruct (parseBRDate (extrairDataBR raw)) as [tc|];
      destruct (parseBRDate alvoBR) as [ta|]; cbn [option_map];
      try (split; [discriminate|intros [_ [? [? [? [? _]]]]]; discriminate]).
    destruct hasPrev; cbn [andb];
      [|split; [discriminate|intros [H _]; discriminate]].
    destruct (Z.ltb_spec (day_number ta) (day_number tc)).
    + split; [intros _; split; [reflexivity|eauto]|reflexivity].
    + split; [discriminate|intros [_ [ta' [tc' [H1 [H2 H3]]]]]].
      injection H1 as <-. injection H2 as <-. lia.
Qed.

Section StepperLemmas.
Variable W : Type.
Variable label : W -> jsstr.
Variables click_prev click_next : W -> option W.
Variables (alvoBR : jsstr) (hasPrev : bool) (alvoDate : option Z).

Lemma stepper_loop_props : forall n w,
  let '(ok, wf, tr) := stepper_loop W label click_prev click_next alvoBR hasPrev alvoDate n w in
  Forall (fun vd => shows alvoBR (label (fst vd)) = false /\
                    snd vd = choose_dir hasPrev alvoDate (label (fst vd))) tr /\
  (ok = true -> shows alvoBR (label wf) = true) /\
  (List.length tr <= n)%nat /\
  (ok = false -> List.length tr = n).
Proof.
  induction n as [|n IH]; intros w.
  - simpl. split; [apply Forall_nil|split; [discriminate|split; [lia|reflexivity]]].
  - cbn [stepper_loop]. destruct (shows alvoBR (label w)) eqn:Hs.
    + split; [apply Forall_nil|split; [auto|split; [simpl; lia|discriminate]]].
    + set (d := choose_dir hasPrev alvoDate (label w)).
      destruct (match d with Bwd => click_prev w | Fwd => click_next w end) as [w1|].
      * destruct (shows alvoBR (label w1)) eqn:Hs1.
        -- split; [apply Forall_cons; [split; auto|apply Forall_nil]|].
           split; [auto|split; [simpl; lia|discriminate]].
        -- specialize (IH w1).
           destruct (stepper_loop W label click_prev click_next alvoBR hasPrev alvoDate n w1)
             as [[ok wf] tr].
           destruct IH as [IH1 [IH2 [IH3 IH4]]].
           split; [apply Forall_cons; [split; auto|auto]|].
           split; [auto|split; [simpl; lia|intros H; simpl; rewrite IH4; auto]].
      * specialize (IH w).
        destruct (stepper_loop W label click_prev click_next alvoBR hasPrev alvoDate n w)
          as [[ok wf] tr].
        destruct IH as [IH1 [IH2 [IH3 IH4]]].
        split; [apply Forall_cons; [split; auto|auto]|].
        split; [auto|split; [simpl; lia|intros H; simpl; rewrite IH4; auto]].
Qed.

End StepperLemmas.

Lemma irAte_shows W label ep en cp cn ov alvoBR maxSteps w :
  fst (fst (irAteDataPorBotoes W label ep en cp cn ov alvoBR maxSteps w)) = true ->
  shows alvoBR (label (snd (fst (irAteDataPorBotoes W label ep en cp cn ov alvoBR maxSteps w)))) = true.
Proof.
  unfold irAteDataPorBotoes.
  destruct (negb (en (ov w)) && negb (ep (ov w))); [discriminate|].
  destruct (shows alvoBR (label (ov w))) eqn:Hs; [auto|].
  pose proof (stepper_loop_props W label cp cn alvoBR (ep (ov w)) (br_time alvoBR) maxSteps (ov w)) as H.
  destruct (stepper_loop W label cp cn alvoBR (ep (ov w)) (br_time alvoBR) maxSteps (ov w))
    as [[ok wf] tr].
  destruct H as [_ [H _]]. exact H.
Qed.

Lemma selecionar_botoes_shows W label ep en cp cn ov dataBR : forall n w,
  fst (selecionar_botoes_loop W label ep en cp cn ov dataBR n w) = true ->
  shows dataBR (label (snd (selecionar_botoes_loop W label ep en cp cn ov dataBR n w))) = true.
Proof.
  induction n as [|n IH]; intros w; [discriminate|].
  cbn [selecionar_botoes_loop]. pose proof (irAte_shows W label ep en cp cn ov dataBR 220 w) as H.
  destruct (irAteDataPorBotoes W label ep en cp cn ov dataBR 220 w) as [[ok w1] tr].
  destruct ok; [intros _; apply H; reflexivity|apply IH].
Qed.

Lemma str_eqb_eq a : forall b, str_eqb a b = true -> a = b.
Proof.
  induction a as [|x a IH]; intros [|y b] H; try discriminate; [reflexivity|].
  simpl in H. apply andb_true_iff in H as [Hx Hb]. apply Z.eqb_eq in Hx. subst. f_equal; auto.
Qed.

Lemma selecionar_calendario_sound V sel btn dataBR : forall n v vf,
  selecionar_calendario_loop V sel btn dataBR n v = Some (true, vf) ->
  dataVisivel V btn vf = dataBR.
Proof.
  induction n as [|n IH]; intros v vf H; [discriminate|].
  cbn [selecionar_calendario_loop] in H.
  destruct (sel dataBR v) as [[okClique v1]|]; [|discriminate].
  destruct okClique; cbn [negb] in H; [|eapply IH; eauto].
  destruct (str_eqb (dataVisivel V btn v1) dataBR) eqn:E; [|eapply IH; eauto].
  injection H as <-. apply str_eqb_eq; auto.
Qed.

(* ================================================================== *)
(** * Lemmas on the remaining functions *)

(** ** [trim] *)

Lemma trim_start_split s :
  exists p, s = p ++ trim_start s /\ Forall (fun c => is_js_ws c = true) p /\
            (forall c, hd_error (trim_start s) = Some c -> is_js_ws c = false).
Proof.
  induction s as [|c s IH]; simpl.
  - exists []; repeat split; auto; discriminate.
  - destruct (is_js_ws c) eqn:E.
    + destruct IH as (p & Hp & Hf & Hh). exists (c :: p); simpl; rewrite <- Hp; auto.
    + exists []; simpl; repeat split; auto. intros d Hd; injection Hd; intros <-; auto.
Qed.

Lemma trim_start_nonws s :
  (forall c, hd_error s = Some c -> is_js_ws c = false) -> trim_start s = s.
Proof.
  destruct s as [|c s]; simpl; auto. intros H; rewrite (H c eq_refl); auto.
Qed.

Lemma trim_start_ws_app p s :
  Forall (fun c => is_js_ws c = true) p -> trim_start (p ++ s) = trim_start s.
Proof. induction 1 as [|c p Hc _ IH]; simpl; auto. rewrite Hc; auto. Qed.

Lemma trimmed_trim s : trimmed (trim s).
Proof.
  unfold trim.
  destruct (trim_start_split s) as (p & _ & _ & Hh).
  set (t := trim_start s) in *.
  destruct (trim_start_split (rev t)) as (q & Hq & _ & Hh2).
  set (u := trim_start (rev t)) in *.
  split.
  - intros c Hc.
    assert (Ht : t = rev u ++ rev q) by (rewrite <- rev_app_distr, <- Hq, rev_involutive; auto).
    destruct (rev u) as [|d r] eqn:Er; [discriminate|].
    simpl in Hc; injection Hc; intros <-.
    apply Hh; rewrite Ht; reflexivity.
  - rewrite rev_involutive; auto.
Qed.

Lemma trim_trimmed s : trimmed s -> trim s = s.
Proof.
  intros [H1 H2]; unfold trim.
  rewrite (trim_start_nonws s H1), (trim_start_nonws (rev s) H2).
  apply rev_involutive.
Qed.

Lemma trim_idem s : trim (trim s) = trim s.
Proof. apply trim_trimmed, trimmed_trim. Qed.

Lemma trim_ws_app w a :
  Forall (fun c => is_js_ws c = true) w -> a <> [] -> trimmed a -> trim (w ++ a) = a.
Proof.
  intros Hw Ha Hta. unfold trim. rewrite trim_start_ws_app by auto.
  rewrite <- (trim_trimmed a Hta) at 2. unfold trim. reflexivity.
Qed.

(** ** [split_any] *)

Lemma split_any_aux_no_sep seps l cur :
  Forall (fun c => existsb (Z.eqb c) seps = false) l ->
  split_any_aux seps cur l = [rev cur ++ l].
Proof.
  revert cur; induction l as [|c l IH]; intros cur H; simpl.
  - rewrite app_nil_r; auto.
  - inversion H; subst. rewrite H2, IH by auto. simpl; rewrite <- app_assoc; auto.
Qed.

Lemma split_any_aux_sep seps l cur c r :
  Forall (fun c => existsb (Z.eqb c) seps = false) l -> existsb (Z.eqb c) seps = true ->
  split_any_aux seps cur (l ++ c :: r) = (rev cur ++ l) :: split_any_aux seps [] r.
Proof.
  revert cur; induction l as [|d l IH]; intros cur H Hc; simpl.
  - rewrite Hc, app_nil_r; auto.
  - inversion H; subst. rewrite H2, IH by auto. simpl; rewrite <- app_assoc; auto.
Qed.

Lemma split_any_aux_no_sep_in seps cur s :
  Forall (fun c => existsb (Z.eqb c) seps = false) cur ->
  Forall (fun f => Forall (fun c => existsb (Z.eqb c) seps = false) f)
         (split_any_aux seps cur s).
Proof.
  revert cur; induction s as [|c s IH]; intros cur Hcur; simpl.
  - constructor; [|constructor]. apply Forall_rev; auto.
  - destruct (existsb (Z.eqb c) seps) eqn:E.
    + constructor; [apply Forall_rev; auto|]. apply IH; constructor.
    + apply IH; constructor; auto.
Qed.

Lemma Forall_trim_start (P : Z -> Prop) s : Forall P s -> Forall P (trim_start s).
Proof. induction 1; simpl; auto. destruct (is_js_ws x); auto. Qed.

Lemma Forall_trim (P : Z -> Prop) s : Forall P s -> Forall P (trim s).
Proof.
  intros H; unfold trim. apply Forall_rev, Forall_trim_start, Forall_rev, Forall_trim_start; auto.
Qed.

(** ** [escapeRegExp] *)

Lemma regex_literal_escape s : regex_literal (escapeRegExp s) = Some s.
Proof.
  induction s as [|c s IH]; simpl; auto.
  destruct (is_regex_special c) eqn:E; simpl.
  - rewrite E, IH; auto.
  - destruct (c =? 92) eqn:E2.
    + apply Z.eqb_eq in E2; subst; discriminate.
    + rewrite E, IH; auto.
Qed.

(** ** [parseMailTo] *)

Lemma ws_not_mail_sep c : is_js_ws c = true -> existsb (Z.eqb c) [59; 44] = false.
Proof.
  intros H; simpl.
  destruct (Z.eqb_spec c 59); [subst; discriminate|].
  destruct (Z.eqb_spec c 44); [subst; discriminate|]. reflexivity.
Qed.

Lemma mail_sep_free c : c <> 59 /\ c <> 44 -> existsb (Z.eqb c) [59; 44] = false.
Proof.
  intros [H1 H2]; simpl.
  destruct (Z.eqb_spec c 59); [contradiction|].
  destruct (Z.eqb_spec c 44); [contradiction|]. reflexivity.
Qed.

Lemma mail_sep_free' c : existsb (Z.eqb c) [59; 44] = false -> c <> 59 /\ c <> 44.
Proof.
  simpl. destruct (Z.eqb_spec c 59); [discriminate|].
  destruct (Z.eqb_spec c 44); [discriminate|]. auto.
Qed.

Lemma split_any_aux_app_free seps w cur x :
  Forall (fun c => existsb (Z.eqb c) seps = false) w ->
  split_any_aux seps cur (w ++ x) = split_any_aux seps (rev w ++ cur) x.
Proof.
  revert cur; induction w as [|c w IH]; intros cur H; simpl; auto.
  inversion H; subst. rewrite H2, IH by auto. simpl; rewrite <- app_assoc; auto.
Qed.

Lemma split_any_join seps c w a rest pre :
  existsb (Z.eqb c) seps = true ->
  Forall (fun c => existsb (Z.eqb c) seps = false) w ->
  Forall (fun c => existsb (Z.eqb c) seps = false) pre ->
  Forall (fun f => Forall (fun c => existsb (Z.eqb c) seps = false) f) (a :: rest) ->
  split_any_aux seps (rev pre) (join (c :: w) (a :: rest)) = (pre ++ a) :: map (app w) rest.
Proof.
  intros Hc Hw. revert a pre; induction rest as [|b rest IH]; intros a pre Hpre Hf.
  - inversion Hf; subst. simpl. rewrite split_any_aux_no_sep by auto.
    rewrite rev_involutive; auto.
  - inversion Hf; subst.
    change (join (c :: w) (a :: b :: rest)) with (a ++ (c :: w) ++ join (c :: w) (b :: rest)).
    cbn [app]. rewrite split_any_aux_sep by auto. rewrite rev_involutive.
    rewrite split_any_aux_app_free by auto. rewrite app_nil_r.
    rewrite (IH b w) by auto. reflexivity.
Qed.

Lemma join_head_nonempty sep a rest : a <> [] -> is_empty (join sep (a :: rest)) = false.
Proof.
  intros H. destruct rest; simpl; destruct a; simpl; auto; congruence.
Qed.

(** ** [insertRowsMySql] *)

Lemma js_slice_chunk {A} (l : list A) i c :
  0 <= i < Z.of_nat (List.length l) -> 1 <= c ->
  (1 <= List.length (js_slice l i (i + c)))%nat /\ Z.of_nat (List.length (js_slice l i (i + c))) <= c /\
  skipn (Z.to_nat i) l = js_slice l i (i + c) ++ skipn (Z.to_nat (i + c)) l.
Proof.
  intros [H0 H1] Hc. unfold js_slice.
  assert (E1 : (i <? 0) = false) by (apply Z.ltb_ge; lia).
  assert (E2 : (i + c <? 0) = false) by (apply Z.ltb_ge; lia).
  cbv zeta. rewrite E1, E2.
  rewrite (Z.min_l i) by lia.
  set (m := Z.to_nat (Z.min (i + c) (Z.of_nat (List.length l)) - i)).
  rewrite length_firstn, length_skipn.
  split; [unfold m; lia|]. split; [unfold m; lia|].
  rewrite <- (firstn_skipn m (skipn (Z.to_nat i) l)) at 1. f_equal.
  rewrite skipn_skipn.
  destruct (Z.le_ge_cases (i + c) (Z.of_nat (List.length l))).
  - replace (m + Z.to_nat i)%nat with (Z.to_nat (i + c)) by (unfold m; lia). auto.
  - rewrite !skipn_all2 by (unfold m; lia). auto.
Qed.

Lemma length_row_values l : List.length (flat_map row_values l) = (9 * List.length l)%nat.
Proof. induction l as [|r l IH]; simpl; auto. rewrite IH; lia. Qed.

Lemma count_join_placeholders n :
  count_occ Z.eq_dec (join [44] (List.repeat row_placeholder (S n))) 63 = (9 * S n)%nat.
Proof.
  induction n as [|n IH]; [reflexivity|].
  change (join [44] (List.repeat row_placeholder (S (S n))))
    with (row_placeholder ++ [44] ++ join [44] (List.repeat row_placeholder (S n))).
  rewrite !count_occ_app, IH. simpl. lia.
Qed.

Lemma count_insert_sql n : count_occ Z.eq_dec (insert_sql n) 63 = (9 * n)%nat.
Proof.
  unfold insert_sql. rewrite !count_occ_app.
  replace (count_occ Z.eq_dec insert_sql_head 63) with 0%nat by reflexivity.
  replace (count_occ Z.eq_dec insert_sql_tail 63) with 0%nat by reflexivity.
  destruct n; [reflexivity|]. rewrite count_join_placeholders. lia.
Qed.

Lemma ins_loop_queries resp rows c fuel i k total :
  Forall (fun q => exists ch, q = (insert_sql (List.length ch), flat_map row_values ch))
         (snd (ins_loop resp rows c fuel i k total)).
Proof.
  revert i k total; induction fuel as [|f IH]; intros i k total; simpl; auto.
  destruct (i <? Z.of_nat (List.length rows)); simpl; auto.
  destruct (resp k) as [a|].
  - specialize (IH (i + c) (S k) (total + affected a)).
    destruct (ins_loop resp rows c f (i + c) (S k) (total + affected a)); simpl in *.
    constructor; eauto.
  - constructor; eauto.
Qed.

Lemma ins_loop_props resp rows c fuel i k total :
  1 <= c -> 0 <= i -> (1 <= fuel)%nat ->
  c * (Z.of_nat fuel - 1) >= Z.of_nat (List.length rows) - i ->
  let (o, qs) := ins_loop resp rows c fuel i k total in
  o <> InsRunning /\
  Forall (fun q => exists n, (1 <= n)%nat /\ Z.of_nat n <= c /\ fst q = insert_sql n /\
                             List.length (snd q) = (9 * n)%nat) qs /\
  (forall j, (S j < List.length qs)%nat -> resp (k + j)%nat <> None) /\
  (o = InsRejected <-> qs <> [] /\ resp (k + List.length qs - 1)%nat = None) /\
  ((forall j, (j < List.length qs)%nat -> resp (k + j)%nat <> None) ->
   flat_map snd qs = flat_map row_values (skipn (Z.to_nat i) rows) /\
   o = InsDone (total + sum_affected resp k (List.length qs))).
Proof.
  intros Hc. revert i k total; induction fuel as [|f IH]; intros i k total Hi Hf Hfuel; [lia|].
  simpl. destruct (i <? Z.of_nat (List.length rows)) eqn:Ei.
  - apply Z.ltb_lt in Ei.
    destruct (js_slice_chunk rows i c) as (Hl1 & Hl2 & Hsk); [lia|lia|].
    set (ch := js_slice rows i (i + c)) in *.
    destruct (resp k) as [a|] eqn:Er.
    + specialize (IH (i + c) (S k) (total + affected a)).
      destruct (ins_loop resp rows c f (i + c) (S k) (total + affected a)) as [o qs].
      destruct IH as (Hrun & Hq & Hres & Hrej & Hall); [lia|nia|nia|].
      split; [auto|]. split.
      { constructor; auto. exists (List.length ch). cbn [fst snd]. rewrite length_row_values. repeat split; auto; lia. }
      split.
      { intros [|j] Hj; [rewrite Nat.add_0_r, Er; discriminate|].
        replace (k + S j)%nat with (S k + j)%nat by lia. apply Hres; simpl in Hj; lia. }
      split.
      { rewrite Hrej. simpl List.length. destruct qs as [|q' qs'].
        - simpl. replace (k + 1 - 1)%nat with k by lia. rewrite Er.
          split; intros [H1 H2]; [congruence|discriminate].
        - replace (k + S (List.length (q' :: qs')) - 1)%nat with (S k + List.length (q' :: qs') - 1)%nat
            by (simpl; lia).
          split; intros [H1 H2]; split; auto; discriminate. }
      intros Hnone. destruct Hall as [Hfl Ho].
      { intros j Hj. replace (S k + j)%nat with (k + S j)%nat by lia. apply Hnone; simpl; lia. }
      split.
      * simpl. rewrite Hfl, Hsk, flat_map_app. auto.
      * rewrite Ho. simpl. rewrite Er. f_equal. lia.
    + split; [discriminate|]. split.
      { constructor; auto. exists (List.length ch). cbn [fst snd]. rewrite length_row_values. repeat split; auto; lia. }
      split; [intros j Hj; simpl in Hj; lia|].
      split.
      { simpl. replace (k + 1 - 1)%nat with k by lia. rewrite Er. split; auto.
        intros _; split; [discriminate|auto]. }
      intros Hnone. exfalso. apply (Hnone 0%nat); [simpl; lia|]. rewrite Nat.add_0_r; auto.
  - apply Z.ltb_ge in Ei.
    split; [discriminate|]. split; [constructor|]. split; [intros j Hj; simpl in Hj; lia|].
    split; [split; [discriminate|intros [H _]; congruence]|].
    intros _. simpl. rewrite skipn_all2 by lia. split; auto. f_equal; lia.
Qed.


(** ** [extrairDataBR] *)

Lemma token_at_head c t : token_at (c :: t) = true -> is_digit c = true.
Proof.
  do 9 (destruct t as [|? t]; [discriminate|]).
  unfold token_at. cbn [forallb]. destruct (is_digit c); auto.
Qed.

Lemma nonword_not_digit c : is_word c = false -> is_digit c = false.
Proof. unfold is_word. destruct (is_digit c); auto. Qed.

Lemma find_token_skip b p r :
  Forall (fun c => is_digit c = false) p ->
  find_token b (p ++ r) = find_token (match rev p with [] => b | c :: _ => is_word c end) r.
Proof.
  intros H. revert b; induction H as [|c p Hc _ IH]; intros b; auto.
  cbn [app find_token].
  replace (token_at (c :: p ++ r)) with false
    by (symmetry; destruct (token_at (c :: p ++ r)) eqn:E; auto;
        apply token_at_head in E; congruence).
  rewrite andb_false_r, IH. cbn [rev]. destruct (rev p); reflexivity.
Qed.

Lemma find_token_shape b s m : find_token b s = Some m -> br_shape m = true.
Proof.
  revert b; induction s as [|c s IH]; intros b H; [discriminate|].
  cbn [find_token] in H. destruct (negb b && token_at (c :: s)) eqn:E.
  - injection H; intros <-. apply andb_prop in E as [_ E].
    do 9 (destruct s as [|? s]; [discriminate|]).
    unfold token_at in E. apply andb_prop in E as [E _]. exact E.
  - eapply IH; eauto.
Qed.

Lemma trim_start_app_nonws p r :
  r <> [] -> (forall c, hd_error r = Some c -> is_js_ws c = false) ->
  exists p1 p2, p = p1 ++ p2 /\ trim_start (p ++ r) = p2 ++ r.
Proof.
  intros Hr Hh. induction p as [|c p IH].
  - exists [], []. split; auto. apply trim_start_nonws; auto.
  - cbn [app trim_start]. destruct (is_js_ws c).
    + destruct IH as (p1 & p2 & -> & E). exists (c :: p1), p2. split; auto.
    + exists [], (c :: p). split; auto.
Qed.

(** ** Date roll-over *)




(** ** [esperarPautaEstabilizar] reads *)

Lemma stab_loop_local c1 c2 fuel i last k :
  (forall j, (k <= j < k + 2 * fuel)%nat -> c1 j = c2 j) ->
  stab_loop c1 fuel i last k = stab_loop c2 fuel i last k.
Proof.
  revert i last k; induction fuel as [|f IH]; intros i last k H; [reflexivity|].
  cbn [stab_loop]. rewrite (H k) by lia. rewrite (H (S k)) by lia.
  destruct (c2 k =? last); [destruct (c2 (S k) =? c2 k)|]; auto;
    apply IH; intros j Hj; apply H; lia.
Qed.

(** ** [extrairProcessosDaPauta] fields *)

Lemma replace_nbsp_free t : Forall (fun c => c <> 160) (replace_all 160 [32] t).
Proof.
  induction t as [|c t IH]; simpl; [constructor|].
  destruct (Z.eqb_spec c 160); simpl; constructor; auto. discriminate.
Qed.

Lemma normText_clean t : field_clean (normText t).
Proof. split; [apply trimmed_trim|apply Forall_trim, replace_nbsp_free]. Qed.

Lemma field_clean_nil : field_clean [].
Proof. split; [split; intros c Hc; discriminate|constructor]. Qed.

Lemma getText_clean el : field_clean (getText el).
Proof. destruct el; [apply normText_clean|apply field_clean_nil]. Qed.

Lemma Forall_nth_default {A} (P : A -> Prop) l i d : Forall P l -> P d -> P (nth i l d).
Proof.
  intros H Hd. revert i; induction H as [|x l Hx _ IH]; intros [|i]; simpl; auto.
Qed.

Lemma join_nonempty sep a l : a <> [] -> join sep (a :: l) <> [].
Proof. intros H. destruct l; simpl; auto. destruct a; simpl; congruence. Qed.

Lemma join_clean sep l :
  Forall (fun c => c <> 160) sep -> Forall (fun a => a <> [] /\ field_clean a) l ->
  field_clean (join sep l).
Proof.
  intros Hs Hl. induction Hl as [|a l [Ha [[Ht1 Ht2] Hn]] Hl IH]; [apply field_clean_nil|].
  destruct l as [|b l]; [split; [split|]; auto|].
  inversion Hl as [|? ? [Hb _] _]; subst.
  destruct IH as [[_ Hr] Hn'].
  change (join sep (a :: b :: l)) with (a ++ sep ++ join sep (b :: l)).
  split; [split|].
  - destruct a as [|x a]; [congruence|]. exact Ht1.
  - rewrite !rev_app_distr. intros c Hc.
    destruct (rev (join sep (b :: l))) as [|z r] eqn:E.
    + exfalso. apply (join_nonempty sep b l Hb). apply (f_equal (@rev Z)) in E.
      rewrite rev_involutive in E. exact E.
    + apply Hr. exact Hc.
  - apply Forall_app; split; auto. apply Forall_app; split; auto.
Qed.

(** ** [main] of the first script *)

Section Main1Lemmas.
Variable W : Type.
Variable selecionarDataNoCalendario : jsstr -> W -> option (bool * W).
Variable button_text : W -> option jsstr.
Variable esperarPautaEstabilizar_w : W -> option W.
Variable extrair_w : W -> option (option nat * list ion_item).
Variable selecionarUnidade_w : jsstr -> W -> option W.
Variable g : jsstr.

Lemma main1_datas_spec vara ds w rows r vs w' :
  main1_datas W selecionarDataNoCalendario button_text esperarPautaEstabilizar_w extrair_w g
    vara ds w rows = Some (r, vs, w') ->
  map visit_key vs = map (pair vara) ds /\ r = rows ++ flat_map (visit_rows g) vs.
Proof.
  revert w rows r vs w'; induction ds as [|d ds IH]; intros w rows r vs w' H.
  - simpl in H. injection H; intros. subst. simpl. rewrite app_nil_r. auto.
  - cbn [main1_datas] in H.
    destruct (selecionarDataComConfirmacao_calendario _ _ _ _ _ _) as [[ok w1]|]; [|discriminate].
    destruct (negb ok).
    + destruct (main1_datas _ _ _ _ _ _ _ _ _ _) as [[[r0 vs0] w0]|] eqn:E; [|discriminate].
      injection H; intros; subst. apply IH in E as [E1 E2]. simpl. rewrite E1. auto.
    + destruct (esperarPautaEstabilizar_w w1) as [w2|]; [|discriminate].
      destruct (extrair_w w2) as [[count items]|]; [|discriminate].
      destruct (main1_datas _ _ _ _ _ _ _ _ _ _) as [[[r0 vs0] w0]|] eqn:E; [|discriminate].
      injection H; intros; subst. apply IH in E as [E1 E2]. simpl. rewrite E1.
      split; auto. rewrite E2, app_assoc. auto.
Qed.

Lemma main1_varas_spec varas ds w rows r vs w' :
  main1_varas W selecionarUnidade_w selecionarDataNoCalendario button_text
    esperarPautaEstabilizar_w extrair_w g varas ds w rows = Some (r, vs, w') ->
  map visit_key vs = list_prod varas ds /\ r = rows ++ flat_map (visit_rows g) vs.
Proof.
  revert w rows r vs w'; induction varas as [|a varas IH]; intros w rows r vs w' H.
  - simpl in H. injection H; intros. subst. simpl. rewrite app_nil_r. auto.
  - cbn [main1_varas] in H.
    destruct (selecionarUnidade_w a w) as [w1|]; [|discriminate].
    destruct (main1_datas _ _ _ _ _ _ _ _ _ _) as [[[r0 vs0] w2]|] eqn:E1; [|discriminate].
    destruct (main1_varas _ _ _ _ _ _ _ _ _ _ _) as [[[r1 vs1] w3]|] eqn:E2; [|discriminate].
    injection H; intros; subst.
    apply main1_datas_spec in E1 as [F1 F2]. apply IH in E2 as [G1 G2].
    rewrite map_app, F1, G1. simpl. split.
    + clear. induction ds; simpl; auto.
    + rewrite G2, F2, flat_map_app, app_assoc. auto.
Qed.

End Main1Lemmas.

Lemma mk_csv_row_cells g a d p :
  map (fun h => cell_value (row_get (mk_csv_row g a d p) h)) csv_headers =
  [g; a; d; numeroProcesso p; sessao p; juiz p; reclamante p; reclamada p].
Proof. reflexivity. Qed.

Lemma writeCsv_readback headers rows :
  headers <> [] ->
  exists body, writeCsv headers rows = 65279 :: body /\
    csv_read body = headers :: map (fun row => map (fun h => cell_value (row_get row h)) headers) rows.
Proof.
  intros Hh. eexists. split; [reflexivity|]. unfold csv_read.
  set (lines := map Some headers :: map (fun row => map (row_get row) headers) rows).
  assert (Hne : map Some headers <> []) by (destruct headers; [congruence|discriminate]).
  pose proof (csv_lines lines ltac:(discriminate)) as Hl.
  assert (Hall : Forall (fun vs => vs <> []) lines).
  { constructor; [auto|]. apply Forall_map, Forall_forall. intros row _.
    destruct headers; [congruence|discriminate]. }
  specialize (Hl Hall []). subst lines.
  etransitivity; [|etransitivity; [exact Hl|]].
  - f_equal. f_equal. cbn [map]. f_equal.
    + rewrite map_map. reflexivity.
    + rewrite map_map. apply map_ext. intros. rewrite map_map. reflexivity.
  - cbn [rev app map]. f_equal.
    + rewrite map_map. apply map_id.
    + rewrite map_map. apply map_ext. intros. rewrite map_map. reflexivity.
Qed.

(** ** [writeXlsx] column widths *)

Lemma xlsx_maxLen_ge h rows m :
  m <= xlsx_maxLen h rows m /\
  forall r, In r rows -> Z.of_nat (List.length (cell_value (row_get r h))) <= xlsx_maxLen h rows m.
Proof.
  revert m; induction rows as [|r rows IH]; intros m; simpl.
  - split; [lia|tauto].
  - set (m' := if Z.of_nat (List.length (cell_value (row_get r h))) >? m
               then Z.of_nat (List.length (cell_value (row_get r h))) else m).
    assert (Hm : m <= m' /\ Z.of_nat (List.length (cell_value (row_get r h))) <= m').
    { unfold m'. destruct (Z.gtb_spec (Z.of_nat (List.length (cell_value (row_get r h)))) m); lia. }
    destruct (IH m') as [H1 H2]. split; [lia|].
    intros r' [<- | Hr']; [lia|auto].
Qed.

Lemma nth_map_seq1 (f : nat -> Z) n i : (i < n)%nat -> nth i (map f (seq 1 n)) 0 = f (S i).
Proof.
  intros H. rewrite (nth_indep _ _ (f 0%nat)) by (rewrite length_map, length_seq; auto).
  rewrite map_nth, seq_nth by auto. reflexivity.
Qed.

(** ** [getEnv] *)

Lemma truthy_getEnv env n fb : truthy (getEnv env n fb) = truthy (env n) || truthy fb.
Proof. unfold getEnv. destruct (env n) as [[|c v]|]; reflexivity. Qed.

Lemma opt_str_getEnv env n fb :
  opt_str (getEnv env n fb) = if truthy (env n) then opt_str (env n) else opt_str fb.
Proof. unfold getEnv. destruct (env n) as [[|c v]|]; reflexivity. Qed.

(** ** [lerTextoDataExibida] *)

Lemma trimmed_nil : trimmed [].
Proof. split; intros c Hc; discriminate. Qed.

(* ================================================================== *)
(** * Claims *)

(* ------------------------------------------------------------------ *)
(** ** C2: the dates of [gerarDatasProximosDoisMeses] *)

(** C2 (as amended): for a clock reading [hoje] (a year from 100 on), the
    first candidate day is [hoje] + 7 days, and every produced string
    denotes a date between that day and the end day [fim] (the same
    day-of-month two months later, normalised as [setMonth] does, plus 10
    days), both bounds INCLUSIVE, whose weekday is Monday..Friday; the
    sequence is ascending and has no duplicates. *)
Theorem gerar_datas_in_range (hoje : date) :
  valid_date hoje -> 100 <= year hoje ->
  day_number (gerar_inicio hoje) = day_number hoje + 7 /\
  Forall (fun s => exists t, parseBRDate s = Some t /\ valid_date t /\
            day_number (gerar_inicio hoje) <= day_number t <= day_number (gerar_fim hoje) /\
            1 <= getDay t <= 5)
    (gerarDatasProximosDoisMeses hoje) /\
  StronglySorted br_before (gerarDatasProximosDoisMeses hoje) /\
  NoDup (gerarDatasProximosDoisMeses hoje).
Proof.
  intros Hv Hy.
  destruct (gerar_inicio_props hoje Hv) as [Hvi [Hni Hyi]].
  rewrite gerar_spec by auto.
  set (n := Z.to_nat (day_number (gerar_fim hoje) - day_number (gerar_inicio hoje) + 1)).
  assert (Hseq : Forall (fun t => valid_date t /\ 100 <= year t) (day_seq (gerar_inicio hoje) n)).
  { apply Forall_forall; intros t Ht. destruct (day_seq_in _ _ _ Hvi Ht) as [? [_ ?]].
    split; auto; lia. }
  assert (Hsorted : StronglySorted br_before
            (map fmtBR (filter (fun t => isWeekdayBR (fmtBR t)) (day_seq (gerar_inicio hoje) n)))).
  { apply filter_map_sorted; auto. apply day_seq_sorted; auto. }
  split; [auto|]. split; [|split; [auto|apply sorted_nodup; auto]].
  apply Forall_map, Forall_forall. intros t Ht. apply filter_In in Ht as [Ht Hwk].
  destruct (day_seq_in _ _ _ Hvi Ht) as [Hvt [Hb Hyt]].
  exists t. rewrite parse_fmtBR by (auto || lia). split; [auto|split; [auto|split]].
  - subst n. destruct (Z.leb_spec (day_number (gerar_fim hoje) - day_number (gerar_inicio hoje) + 1) 0);
      [replace (Z.to_nat _) with O in Hb by lia; lia|lia].
  - unfold isWeekdayBR in Hwk. rewrite parse_fmtBR in Hwk by (auto || lia).
    pose proof (Z.mod_pos_bound (day_number t + 4) 7 ltac:(lia)). unfold getDay in *.
    destruct (Z.eqb_spec ((day_number t + 4) mod 7) 0); [discriminate|].
    destruct (Z.eqb_spec ((day_number t + 4) mod 7) 6); [discriminate|]. lia.
Qed.

Lemma gerar_datas_in_range_witness :
  (valid_date (mkDate 2026 10 14) /\ 100 <= year (mkDate 2026 10 14)) /\
  NoDup (gerarDatasProximosDoisMeses (mkDate 2026 10 14)).
Proof.
  assert (H : valid_date (mkDate 2026 10 14) /\ 100 <= year (mkDate 2026 10 14))
    by (unfold valid_date; vm_compute; repeat split; discriminate).
  split; [exact H|].
  exact (proj2 (proj2 (proj2 (gerar_datas_in_range (mkDate 2026 10 14) (proj1 H) (proj2 H))))).
Defined.

(** C2 (as stated, refuted): the lower bound is not strict. On 14/10/2026
    (a Wednesday) the first produced date is 21/10/2026, exactly today + 7
    days. *)
Lemma gerar_datas_not_strict :
  ~ (forall s, In s (gerarDatasProximosDoisMeses (mkDate 2026 10 14)) ->
       exists t, parseBRDate s = Some t /\
         day_number (mkDate 2026 10 14) + 7 < day_number t).
Proof.
  intros H.
  assert (Hin : In (js "21/10/2026") (gerarDatasProximosDoisMeses (mkDate 2026 10 14)))
    by (vm_compute; left; reflexivity).
  destruct (H _ Hin) as [t [Hp Hlt]]. vm_compute in Hp. injection Hp as <-.
  vm_compute in Hlt. discriminate.
Qed.

(* ------------------------------------------------------------------ *)
(** ** C10: [parseBRDate] / [brToIsoDateString] / [getTodayBR] *)

(** C10 (as amended): for a valid calendar date with a four-digit year
    1000..9999, [brToIsoDateString] of its canonical [DD/MM/YYYY] string is
    its canonical [YYYY-MM-DD] string; and [getTodayBR] yields the canonical
    [DD/MM/YYYY] string of the clock date when its year is in 1000..9999. *)
Theorem br_iso_roundtrip (y m d : Z) (hoje : date) :
  valid_date (mkDate y m d) -> 1000 <= y <= 9999 ->
  valid_date hoje -> 1000 <= year hoje <= 9999 ->
  brToIsoDateString (canonical_br y m d) = canonical_iso y m d /\
  getTodayBR hoje = canonical_br (year hoje) (month hoje) (day hoje).
Proof.
  intros [Hm Hd] Hy [Hm' Hd'] Hy'. simpl in Hm, Hd.
  pose proof (days_in_month_bounds y m). pose proof (days_in_month_bounds (year hoje) (month hoje)).
  split.
  - rewrite canonical_br_fmt by lia. unfold brToIsoDateString.
    rewrite parse_fmtBR by (try split; simpl; lia). simpl.
    rewrite String_four, !pad_two by lia. reflexivity.
  - unfold getTodayBR. rewrite canonical_br_fmt by lia. destruct hoje; reflexivity.
Qed.

Lemma br_iso_roundtrip_witness :
  brToIsoDateString (canonical_br 2026 3 5) = canonical_iso 2026 3 5.
Proof.
  refine (proj1 (br_iso_roundtrip 2026 3 5 (mkDate 2026 10 14) _ _ _ _));
    unfold valid_date; vm_compute; repeat split; discriminate.
Defined.

(** C10 (as stated, refuted): 01/01/0050 is a zero-padded valid date, but
    [new Date(50, 0, 1)] is 1 January 1950, so the result is 1950-01-01. *)
Lemma br_iso_year_0050 :
  valid_date (mkDate 50 1 1) /\
  brToIsoDateString (canonical_br 50 1 1) = js "1950-01-01" /\
  brToIsoDateString (canonical_br 50 1 1) <> canonical_iso 50 1 1.
Proof.
  split; [unfold valid_date; vm_compute; repeat split; discriminate|].
  split; [vm_compute; reflexivity|vm_compute; discriminate].
Qed.

(* ------------------------------------------------------------------ *)
(** ** C3: [esperarPautaEstabilizar] returns within 20 iterations *)

(** C3: whatever counts the page reports, [esperarPautaEstabilizar]
    returns at the first iteration whose count equals the previous poll's
    count and whose re-sample matches it, which is before the 20-iteration
    ceiling; when no iteration below 20 confirms, it returns after the 20
    iterations. In particular, when no two consecutive reads are ever equal
    it returns after the 20 iterations. *)
Theorem stabilizer_bounded (counts : nat -> Z) :
  match esperarPautaEstabilizar counts with
  | Stable i => (i < 20)%nat /\ stab_confirms counts i /\
                forall j, (j < i)%nat -> ~ stab_confirms counts j
  | Exhausted => forall j, (j < 20)%nat -> ~ stab_confirms counts j
  end /\
  ((forall k, counts k <> counts (S k)) -> esperarPautaEstabilizar counts = Exhausted).
Proof.
  split.
  - pose proof (stab_loop_sound counts 20 0) as H. unfold esperarPautaEstabilizar.
    cbn [stab_at fst snd] in H. destruct (stab_loop counts 20 0 (-1) 0) as [i|].
    + destruct H as [Hi [Hc Hf]]. split; [lia|split; [auto|intros; apply Hf; lia]].
    + intros j Hj. apply H. lia.
  - intros H. apply stab_loop_never. exact H.
Qed.

Lemma stabilizer_bounded_witness :
  esperarPautaEstabilizar (fun k => Z.of_nat k) = Exhausted.
Proof. apply (proj2 (stabilizer_bounded (fun k => Z.of_nat k))). intros k. lia. Defined.

(* ------------------------------------------------------------------ *)
(** ** C7: [retryOperation] *)

(** C7: for [maxRetries] attempts, the first attempt [j] that succeeds
    makes [retryOperation] return its value, after the failed attempts
    [1 .. j-1] each followed by a warning, [fecharOverlays] and the wait of
    [delayMs]; when all [maxRetries >= 1] attempts fail it rejects with the
    last attempt's error, the last failure being followed by no overlay
    guard and no wait; and it rejects only in that case. *)
Theorem retry_envelope {A E : Type} (op : nat -> result A E) (maxRetries : nat) (delayMs : Z) :
  (forall j x, (1 <= j <= maxRetries)%nat -> op j = Ok x ->
     (forall i, (1 <= i < j)%nat -> exists e, op i = Err e) ->
     retryOperation op maxRetries delayMs =
       (Returned x, retried 1 (j - 1) delayMs ++ [Attempt j])) /\
  ((1 <= maxRetries)%nat ->
     (forall i, (1 <= i <= maxRetries)%nat -> exists e, op i = Err e) ->
     exists e, op maxRetries = Err e /\
       retryOperation op maxRetries delayMs =
         (Thrown e, retried 1 (maxRetries - 1) delayMs ++ [Attempt maxRetries; Warn maxRetries])) /\
  (forall e, fst (retryOperation op maxRetries delayMs) = Thrown e ->
     op maxRetries = Err e /\
     forall i, (1 <= i <= maxRetries)%nat -> exists e', op i = Err e').
Proof.
  unfold retryOperation. split; [|split].
  - intros j x Hj Hx Hb. apply retry_from_success; auto; lia.
  - intros Hn Hall. apply retry_from_failure; auto; lia.
  - intros e Ht. apply (retry_from_thrown op maxRetries delayMs maxRetries 1 e); auto; lia.
Qed.

Lemma retry_envelope_witness :
  retryOperation (fun i : nat => if Nat.ltb i 3 then @Err Z unit tt else Ok 42) 5 1200 =
    (Returned 42, retried 1 2 1200 ++ [Attempt 3%nat]).
Proof.
  refine (proj1 (retry_envelope (fun i : nat => if Nat.ltb i 3 then @Err Z unit tt else Ok 42) 5 1200)
            3%nat 42 _ _ _).
  - lia.
  - reflexivity.
  - intros i Hi. exists tt. replace (Nat.ltb i 3) with true by (symmetry; apply Nat.ltb_lt; lia).
    reflexivity.
Defined.

(* ------------------------------------------------------------------ *)
(** ** C5: [extrairProcessosDaPauta] keeps one record per item *)

(** C5: when the count reads the list the mapper then walks, the
    extraction returns exactly one record per item, the [i]-th record coming
    from the [i]-th item; an item without an identifier element yields a
    record whose [numeroProcesso] is the empty string. (A rejected count
    yields no records.) *)
Theorem extraction_cardinality (items : list ion_item) :
  List.length (extrairProcessosDaPauta (Some (List.length items)) items) = List.length items /\
  (forall i, nth_error (extrairProcessosDaPauta (Some (List.length items)) items) i =
             option_map map_item (nth_error items i)) /\
  (forall item, sel_negrito item = None -> numeroProcesso (map_item item) = []) /\
  extrairProcessosDaPauta None items = [].
Proof.
  unfold extrairProcessosDaPauta. split; [|split; [|split]].
  - destruct (Nat.eqb_spec (List.length items) 0) as [H0|_]; [simpl; lia|apply length_map].
  - intros i. destruct (Nat.eqb_spec (List.length items) 0) as [H0|_].
    + apply length_zero_iff_nil in H0. subst items. destruct i; reflexivity.
    + apply nth_error_map.
  - intros item H. unfold map_item. rewrite H. reflexivity.
  - reflexivity.
Qed.

Lemma extraction_cardinality_witness :
  numeroProcesso (map_item (mkItem (Some (js "09:00")) None None [js "Juiz"])) = [].
Proof. apply (proj1 (proj2 (proj2 (extraction_cardinality [])))). reflexivity. Defined.

(* ------------------------------------------------------------------ *)
(** ** C9: positional assignment of the description sub-fields *)

(** C9: [juiz], [reclamante] and [reclamada] are the first, second and
    third description sub-fields that are non-empty after replacing
    U+00A0 by a space and trimming, or the empty string when there are
    fewer such sub-fields. *)
Theorem extraction_positional (item : ion_item) :
  juiz (map_item item) = kth_nonempty 0 (sel_desc item) /\
  reclamante (map_item item) = kth_nonempty 1 (sel_desc item) /\
  reclamada (map_item item) = kth_nonempty 2 (sel_desc item).
Proof.
  unfold map_item; simpl. rewrite !nth_parte_kth. repeat split.
Qed.

(* ------------------------------------------------------------------ *)
(** ** C8: [writeCsv] and [csvEscape] *)

(** C8: with a non-empty header list, the text written by [writeCsv] is a
    U+FEFF byte-order mark followed by a body that reads back as the header
    row and then one row per record, each with the record's values in header
    order (absent values as empty fields); and [csvEscape] quotes a string,
    doubling its double quotes, exactly when it contains a semicolon, a
    double quote, LF or CR, and returns it unchanged otherwise. *)
Theorem csv_sink (headers : list jsstr) (rows : list csv_row) :
  headers <> [] ->
  (exists body, writeCsv headers rows = 65279 :: body /\
     csv_read body =
       headers :: map (fun row => map (fun h => cell_value (row_get row h)) headers) rows) /\
  (forall s, existsb csv_special s = true ->
     csvEscape (Some s) = [34] ++ replace_all 34 [34; 34] s ++ [34]) /\
  (forall s, existsb csv_special s = false -> csvEscape (Some s) = s).
Proof.
  intros Hh. split; [|split; intros s Hs; unfold csvEscape; rewrite Hs; reflexivity].
  eexists. split; [reflexivity|]. unfold csv_read.
  set (lines := map Some headers :: map (fun row => map (row_get row) headers) rows).
  assert (Hne : map Some headers <> []) by (destruct headers; [congruence|discriminate]).
  pose proof (csv_lines lines ltac:(discriminate)) as Hl.
  assert (Hall : Forall (fun vs => vs <> []) lines).
  { constructor; [auto|]. apply Forall_map, Forall_forall. intros row _.
    destruct headers; [congruence|discriminate]. }
  specialize (Hl Hall []). subst lines.
  etransitivity; [|etransitivity; [exact Hl|]].
  - f_equal. f_equal. cbn [map]. f_equal.
    + rewrite map_map. reflexivity.
    + rewrite map_map. apply map_ext. intros. rewrite map_map. reflexivity.
  - cbn [rev app map]. f_equal.
    + rewrite map_map. apply map_id.
    + rewrite map_map. apply map_ext. intros. rewrite map_map. reflexivity.
Qed.

Lemma csv_sink_witness :
  csv_read (tl (writeCsv [js "a"; js "b"] [[(js "a", js "x;y")]])) =
    [[js "a"; js "b"]; [js "x;y"; []]].
Proof.
  destruct (proj1 (csv_sink [js "a"; js "b"] [[(js "a", js "x;y")]] ltac:(discriminate)))
    as [body [Hw Hr]].
  rewrite Hw. simpl tl. rewrite Hr. reflexivity.
Defined.

(* ------------------------------------------------------------------ *)
(** ** C6: [navegarParaMes] *)

(** C6: for any page, every button click of [navegarParaMes] agrees with
    the header read before it ([nav_ok]: forward when unreadable, otherwise
    forward exactly when the target key [year * 12 + month] is greater and
    backward exactly when it is smaller, never on the target month); at most
    [maxSteps] clicks happen; [true] is returned only on a page whose header
    shows the target month, [false] only after [maxSteps] iterations. When
    every header reads correctly (the months [k] of [key_header], one month
    per click), the visited keys go from the start key toward the target one
    month per click, their distance to the target dropping by one each time
    (so it never overshoots), the number of clicks is the smaller of
    [maxSteps] and the initial distance, and the result is [true] exactly
    when that distance is below [maxSteps]. *)
Theorem navegar_monotone (W : Type) (header : W -> option (Z * Z)) (click_next click_prev : W -> option W)
    (targetDate : date) (maxSteps : nat) (w : W) (c : Z) :
  valid_date targetDate ->
  (forall v y mi, header v = Some (y, mi) -> 0 <= mi < 12) ->
  (let '(r, tr) := navegarParaMes W header click_next click_prev targetDate maxSteps w in
   Forall (nav_ok header (year targetDate) (month targetDate - 1)) tr /\
   (List.length tr <= maxSteps)%nat /\
   (forall wf, r = NavDone true wf -> header wf = Some (year targetDate, month targetDate - 1)) /\
   (forall wf, r = NavDone false wf -> List.length tr = maxSteps)) /\
  (let tgt := year targetDate * 12 + (month targetDate - 1) in
   let '(r, tr) := navegarParaMes Z key_header key_next key_prev targetDate maxSteps c in
   map fst tr = zseq c (Z.sgn (tgt - c)) (List.length tr) /\
   map (fun k => Z.abs (tgt - k)) (map fst tr) = zseq (Z.abs (tgt - c)) (-1) (List.length tr) /\
   Z.of_nat (List.length tr) = Z.min (Z.of_nat maxSteps) (Z.abs (tgt - c)) /\
   r = NavDone (Z.abs (tgt - c) <? Z.of_nat maxSteps) (c + Z.sgn (tgt - c) * Z.of_nat (List.length tr))).
Proof.
  intros [Hm _] Hh. unfold navegarParaMes. split.
  - apply nav_loop_props; [exact Hh|lia].
  - cbv zeta. pose proof (nav_key_props (year targetDate) (month targetDate - 1) ltac:(lia) maxSteps c) as H.
    destruct (nav_loop Z key_header key_next key_prev (year targetDate) (month targetDate - 1) maxSteps c)
      as [r tr].
    destruct H as [H1 [H2 H3]]. split; [auto|split; [|auto]].
    set (t := year targetDate * 12 + (month targetDate - 1)) in *.
    rewrite H1. destruct (Z.eq_dec t c) as [E|E].
    + assert (List.length tr = O) as -> by (rewrite E, Z.sub_diag in H2; lia). reflexivity.
    + replace (Z.abs (t - c)) with (Z.sgn (t - c) * (t - c))
        by (destruct (Z.ltb_spec 0 (t - c));
            [rewrite Z.sgn_pos by lia|rewrite Z.sgn_neg by lia]; lia).
      apply zseq_distance.
      * destruct (Z.ltb_spec 0 (t - c)); [rewrite Z.sgn_pos by lia|rewrite Z.sgn_neg by lia]; lia.
      * destruct (Z.ltb_spec 0 (t - c)); [rewrite Z.sgn_pos by lia|rewrite Z.sgn_neg by lia]; lia.
Qed.

Lemma navegar_monotone_witness :
  map fst (snd (navegarParaMes Z key_header key_next key_prev (mkDate 2026 3 5) 36 24321)) =
    zseq 24321 (-1) 7.
Proof.
  pose proof (navegar_monotone Z key_header key_next key_prev (mkDate 2026 3 5) 36 24321 24321
                ltac:(unfold valid_date; vm_compute; repeat split; discriminate)
                ltac:(intros v y mi H; injection H as <- <-; apply Z.mod_pos_bound; lia)) as [_ H].
  vm_compute in H. destruct H as [H _]. vm_compute. exact H.
Defined.

(* ------------------------------------------------------------------ *)
(** ** C4: [irAteDataPorBotoes] *)

(** C4 (as amended): let [w0] be the page after [fecharOverlays]. With
    neither button present, [irAteDataPorBotoes] reports failure without
    clicking. Otherwise, when the label of [w0] already contains [alvoBR]
    it reports success without clicking. Each step's page has a label not
    containing [alvoBR], and the step goes backward exactly when the
    previous-button is present and the [DD/MM/YYYY] token extracted from the
    label is a later date than the target (no token, the default, is
    forward). Success is reported only on a page whose label contains
    [alvoBR]; there are at most [maxSteps] steps, and failure with a button
    present comes after exactly [maxSteps] steps. *)
Theorem stepper_navigation (W : Type) (label : W -> jsstr) (exists_prev exists_next : W -> bool)
    (click_prev click_next : W -> option W) (overlays : W -> W)
    (alvoBR : jsstr) (maxSteps : nat) (w : W) :
  let w0 := overlays w in
  let '(ok, wf, tr) := irAteDataPorBotoes W label exists_prev exists_next click_prev click_next
                         overlays alvoBR maxSteps w in
  (exists_prev w0 = false -> exists_next w0 = false -> ok = false /\ tr = []) /\
  (exists_prev w0 = true \/ exists_next w0 = true ->
     label w0 <> [] -> includes (label w0) alvoBR = true -> ok = true /\ wf = w0 /\ tr = []) /\
  Forall (fun vd => ~ (label (fst vd) <> [] /\ includes (label (fst vd)) alvoBR = true) /\
     (snd vd = Bwd <->
        exists_prev w0 = true /\
        exists ta tc, parseBRDate alvoBR = Some ta /\
          parseBRDate (extrairDataBR (label (fst vd))) = Some tc /\ day_number ta < day_number tc)) tr /\
  (ok = true -> label wf <> [] /\ includes (label wf) alvoBR = true) /\
  (List.length tr <= maxSteps)%nat /\
  (ok = false -> exists_prev w0 = true \/ exists_next w0 = true -> List.length tr = maxSteps).
Proof.
  cbv zeta. unfold irAteDataPorBotoes.
  destruct (exists_prev (overlays w)) eqn:Hp; destruct (exists_next (overlays w)) eqn:Hn;
    cbn [negb andb];
    [| | |split; [intros _ _; split; reflexivity|split; [intros [H|H]; discriminate|]];
          split; [apply Forall_nil|split; [discriminate|split; [simpl; lia|intros _ [H|H]; discriminate]]]].
  all: destruct (shows alvoBR (label (overlays w))) eqn:Hs;
    [split; [intros H; discriminate|split; [intros _ _ _; auto|]];
     split; [apply Forall_nil|split; [intros _; apply shows_spec; auto|split; [simpl; lia|discriminate]]]|].
  all: match goal with |- context [stepper_loop ?W ?l ?cp ?cn ?a ?hp ?ad ?n ?w0] =>
         pose proof (stepper_loop_props W l cp cn a hp ad n w0) as H;
         destruct (stepper_loop W l cp cn a hp ad n w0) as [[ok wf] tr] end;
    destruct H as [H1 [H2 [H3 H4]]];
    (split; [intros; discriminate|split; [intros _ Hne Hinc; exfalso; rewrite <- not_true_iff_false in Hs; apply Hs, shows_spec; auto|]]);
    (split; [|split; [intros Hok; apply shows_spec; auto|split; [auto|intros Hok _; auto]]]);
    (eapply Forall_impl; [|exact H1]); intros [v d] [Hv Hd]; cbn [fst snd] in *;
    (split; [rewrite <- shows_spec; congruence|]); rewrite Hd, choose_dir_spec; reflexivity.
Qed.

Lemma stepper_navigation_witness :
  fst (fst (irAteDataPorBotoes unit (fun _ => js "05/03/2026") (fun _ => true) (fun _ => true)
              (fun _ => Some tt) (fun _ => Some tt) (fun v => v) (js "05/03/2026") 180 tt)) = true.
Proof.
  pose proof (stepper_navigation unit (fun _ => js "05/03/2026") (fun _ => true) (fun _ => true)
                (fun _ => Some tt) (fun _ => Some tt) (fun v => v) (js "05/03/2026") 180 tt) as H.
  cbv zeta in H.
  destruct (irAteDataPorBotoes unit _ _ _ _ _ _ (js "05/03/2026") 180 tt) as [[ok wf] tr].
  destruct H as [_ [H _]]. destruct (H (or_introl eq_refl)) as [-> _];
    [discriminate|reflexivity|reflexivity].
Defined.

(** C4 (as stated, refuted). First, with no previous-button the stepper
    goes forward although the target 05/03/2026 is earlier than the
    displayed 10/03/2026. Second, with neither button present it reports
    failure although the label already contains the target. *)
Lemma stepper_claim_refuted :
  (let '(_, _, tr) := irAteDataPorBotoes unit (fun _ => js "10/03/2026") (fun _ => false)
                        (fun _ => true) (fun _ => None) (fun _ => Some tt) (fun v => v)
                        (js "05/03/2026") 180 tt in
   hd_error tr = Some (tt, Fwd)) /\
  (exists ta tc, parseBRDate (js "05/03/2026") = Some ta /\
     parseBRDate (extrairDataBR (js "10/03/2026")) = Some tc /\ day_number ta < day_number tc) /\
  fst (fst (irAteDataPorBotoes unit (fun _ => js "05/03/2026") (fun _ => false) (fun _ => false)
              (fun _ => None) (fun _ => None) (fun v => v) (js "05/03/2026") 180 tt)) = false /\
  includes (js "05/03/2026") (js "05/03/2026") = true.
Proof.
  split; [vm_compute; reflexivity|].
  split; [|split; vm_compute; reflexivity].
  eexists; eexists. split; [vm_compute; reflexivity|]. split; [vm_compute; reflexivity|].
  vm_compute. reflexivity.
Qed.

(* ------------------------------------------------------------------ *)
(** ** C1: [selecionarDataComConfirmacao] *)

(** C1 (as amended): with the calendar strategy (first script), a reported
    success means the trimmed [innerText] of the date button, read right
    after, equals [dataBR]. With the button stepper (second script), a
    reported success only means the label read after it is non-empty and
    contains [dataBR]. *)
Theorem confirmacao_sound
    (W : Type) (label : W -> jsstr) (exists_prev exists_next : W -> bool)
    (click_prev click_next : W -> option W) (overlays : W -> W)
    (V : Type) (selecionarDataNoCalendario : jsstr -> V -> option (bool * V))
    (button_text : V -> option jsstr)
    (dataBR : jsstr) (maxTentativas : nat) (w : W) (v vf : V) :
  (selecionarDataComConfirmacao_calendario V selecionarDataNoCalendario button_text dataBR
     maxTentativas v = Some (true, vf) ->
   dataVisivel V button_text vf = dataBR) /\
  (fst (selecionarDataComConfirmacao_botoes W label exists_prev exists_next click_prev click_next
          overlays dataBR maxTentativas w) = true ->
   let wf := snd (selecionarDataComConfirmacao_botoes W label exists_prev exists_next click_prev
                    click_next overlays dataBR maxTentativas w) in
   label wf <> [] /\ includes (label wf) dataBR = true).
Proof.
  split.
  - apply selecionar_calendario_sound.
  - intros H. cbv zeta. apply shows_spec. apply selecionar_botoes_shows. exact H.
Qed.

Lemma confirmacao_sound_witness :
  dataVisivel unit (fun _ => Some (js " 05/03/2026 ")) tt = js "05/03/2026".
Proof.
  apply (proj1 (confirmacao_sound unit (fun _ => []) (fun _ => true) (fun _ => true)
                  (fun _ => None) (fun _ => None) (fun v => v)
                  unit (fun _ _ => Some (true, tt)) (fun _ => Some (js " 05/03/2026 "))
                  (js "05/03/2026") 3 tt tt tt)).
  vm_compute. reflexivity.
Defined.

(** C1 (as stated, refuted): a stepper page whose label reads
    [qua., 05/03/2026] makes [selecionarDataComConfirmacao] report success
    for 05/03/2026, while the label re-read afterwards differs from the
    canonical string. *)
Lemma confirmacao_label_differs :
  let r := selecionarDataComConfirmacao_botoes unit (fun _ => js "qua., 05/03/2026")
             (fun _ => true) (fun _ => true) (fun _ => Some tt) (fun _ => Some tt) (fun v => v)
             (js "05/03/2026") 3 tt in
  fst r = true /\ (fun _ : unit => js "qua., 05/03/2026") (snd r) <> js "05/03/2026".
Proof. vm_compute. split; [reflexivity|discriminate]. Qed.

(* ================================================================== *)
(** * Further properties of the code *)

(** ** [parseMailTo] and [escapeRegExp] *)

(** X1: every address [parseMailTo] returns is non-empty, has no white
    space at either end and contains neither separator [;] nor [,]. *)
Theorem parseMailTo_entries_ok v : Forall mail_ok (parseMailTo v).
Proof.
  unfold parseMailTo. destruct (is_empty v); [constructor|].
  unfold filterBoolean. apply Forall_forall. intros a Ha.
  apply filter_In in Ha as [Ha Hne]. apply in_map_iff in Ha as (f & <- & Hf).
  pose proof (split_any_aux_no_sep_in [59; 44] [] v (Forall_nil _)) as Hall.
  rewrite Forall_forall in Hall. specialize (Hall f Hf).
  repeat split.
  - intros E; rewrite E in Hne; discriminate.
  - apply trimmed_trim.
  - apply trimmed_trim.
  - apply Forall_trim. eapply Forall_impl; [|exact Hall]. intros c Hc; apply mail_sep_free'; auto.
Qed.

(** X2: joining well-formed addresses with [;] or [,] followed by any white
    space and parsing the result gives back the addresses, in order. *)
Theorem parseMailTo_join c w addrs :
  (c = 59 \/ c = 44) -> Forall (fun x => is_js_ws x = true) w -> Forall mail_ok addrs ->
  parseMailTo (join (c :: w) addrs) = addrs.
Proof.
  intros Hc Hw Ha. destruct addrs as [|a rest]; [reflexivity|].
  unfold parseMailTo. inversion Ha as [|? ? Ha0 Hrest]; subst.
  rewrite join_head_nonempty by (apply Ha0).
  unfold split_any.
  assert (J : split_any_aux [59; 44] (rev []) (join (c :: w) (a :: rest)) =
              ([] ++ a) :: map (app w) rest).
  { apply split_any_join.
    - destruct Hc as [-> | ->]; reflexivity.
    - eapply Forall_impl; [|exact Hw]. apply ws_not_mail_sep.
    - constructor.
    - constructor.
      + destruct Ha0 as (_ & _ & H). eapply Forall_impl; [|exact H]. apply mail_sep_free.
      + eapply Forall_impl; [|exact Hrest]. intros b (_ & _ & H).
        eapply Forall_impl; [|exact H]. apply mail_sep_free. }
  cbn [rev app] in J. rewrite J.
  cbn [map]. unfold filterBoolean. cbn [filter].
  destruct Ha0 as (Hne & Htr & _). rewrite (trim_trimmed a Htr).
  destruct a as [|x a]; [congruence|]. cbn [is_empty negb]. f_equal.
  clear Ha J.
  induction Hrest as [|b rest Hb Hrest IH]; cbn [map filter]; auto.
  destruct Hb as (Hbne & Hbtr & _). rewrite trim_ws_app by auto.
  destruct b as [|y b]; [congruence|]. cbn [is_empty negb]. f_equal; auto.
Qed.

Lemma parseMailTo_join_witness :
  parseMailTo (join (js ", ") [js "ana@trt.jus.br"; js "rui@trt.jus.br"]) =
  [js "ana@trt.jus.br"; js "rui@trt.jus.br"].
Proof.
  apply (parseMailTo_join 44 [32]); [right; reflexivity | repeat constructor |].
  repeat apply Forall_cons; try apply Forall_nil;
    (split; [discriminate | split; [split; intros ch Hch; simpl in Hch; injection Hch;
      intros <-; reflexivity | ]]);
    repeat (apply Forall_cons; [split; discriminate|]); apply Forall_nil.
Defined.

(** X3: the output of [escapeRegExp s], read as a regular expression, is a
    sequence of literal atoms (plain characters and identity escapes of
    syntax characters) that spells [s]: the pattern matches [s] literally. *)
Theorem escapeRegExp_literal s : regex_literal (escapeRegExp s) = Some s.
Proof. apply regex_literal_escape. Qed.

(** ** [insertRowsMySql] *)

(** X4: with a pool, [chunkSize >= 1] and every query resolving, the
    statements sent carry the nine values of every row exactly once and in
    order, each statement covers between 1 and [chunkSize] rows, and the
    call resolves with the sum of the [affectedRows] of its queries. *)
Theorem insertRowsMySql_all_rows resp rows c :
  1 <= c -> (forall k, resp k <> None) ->
  let (o, qs) := insertRowsMySql resp true rows c in
  flat_map snd qs = flat_map row_values rows /\
  Forall (fun q => exists n, (1 <= n)%nat /\ Z.of_nat n <= c /\ fst q = insert_sql n /\
                             List.length (snd q) = (9 * n)%nat) qs /\
  o = InsDone (sum_affected resp 0 (List.length qs)).
Proof.
  intros Hc Hall. unfold insertRowsMySql. simpl negb. cbv iota.
  destruct rows as [|r rows'] eqn:Er; [simpl; auto|]. rewrite <- Er.
  pose proof (ins_loop_props resp rows c (S (List.length rows)) 0 0 0 Hc) as H.
  destruct (ins_loop resp rows c (S (List.length rows)) 0 0 0) as [o qs].
  destruct H as (_ & Hq & _ & _ & Hfl); [lia|lia|nia|].
  destruct Hfl as [Hfl Ho]; [intros j _; apply Hall|].
  split; [exact Hfl|]. split; [exact Hq|]. rewrite Ho; f_equal.
Qed.

Lemma insertRowsMySql_all_rows_witness :
  let rw := mkDbRow (js "2026-10-14T12:00:00.000Z") (js "1a Vara") (js "20/10/2026")
                    (js "0000001-00.2026.5.02.0001") (Some (js "Sala 1")) None None None in
  let (o, qs) := insertRowsMySql (fun _ => Some (Some 1)) true [rw; rw; rw] 2 in
  flat_map snd qs = flat_map row_values [rw; rw; rw] /\
  Forall (fun q => exists n, (1 <= n)%nat /\ Z.of_nat n <= 2 /\ fst q = insert_sql n /\
                             List.length (snd q) = (9 * n)%nat) qs /\
  o = InsDone (sum_affected (fun _ => Some (Some 1)) 0 (List.length qs)).
Proof.
  intros rw. apply (insertRowsMySql_all_rows (fun _ => Some (Some 1)) [rw; rw; rw] 2);
    [lia | intros k; discriminate].
Defined.

(** X5: every statement [insertRowsMySql] sends has exactly one [?]
    placeholder per bound value (nine per row), whatever the rows, the
    chunk size and the answers of the database. *)
Theorem insertRowsMySql_placeholders resp pool_ok rows c :
  Forall (fun q => count_occ Z.eq_dec (fst q) 63 = List.length (snd q))
         (snd (insertRowsMySql resp pool_ok rows c)).
Proof.
  unfold insertRowsMySql. destruct (negb pool_ok); [constructor|].
  destruct rows as [|r rows']; [constructor|].
  eapply Forall_impl; [|apply ins_loop_queries].
  intros q (ch & ->). cbn [fst snd]. rewrite count_insert_sql, length_row_values. auto.
Qed.

(** X6: with [chunkSize >= 1] the call always settles: it either resolves
    or rejects, it rejects exactly when the last query it sent was rejected,
    and it sends no query after a rejected one. *)
Theorem insertRowsMySql_settles resp pool_ok rows c :
  1 <= c ->
  let (o, qs) := insertRowsMySql resp pool_ok rows c in
  o <> InsRunning /\
  (forall j, (S j < List.length qs)%nat -> resp j <> None) /\
  (o = InsRejected <-> qs <> [] /\ resp (List.length qs - 1)%nat = None).
Proof.
  intros Hc. unfold insertRowsMySql.
  destruct (negb pool_ok).
  { split; [discriminate|]. split; [intros j Hj; simpl in Hj; lia|].
    split; [discriminate|intros [H _]; congruence]. }
  destruct rows as [|r rows'] eqn:Er.
  { split; [discriminate|]. split; [intros j Hj; simpl in Hj; lia|].
    split; [discriminate|intros [H _]; congruence]. }
  rewrite <- Er.
  pose proof (ins_loop_props resp rows c (S (List.length rows)) 0 0 0 Hc) as H.
  destruct (ins_loop resp rows c (S (List.length rows)) 0 0 0) as [o qs].
  destruct H as (Hrun & _ & Hres & Hrej & _); [lia|lia|nia|].
  split; [auto|]. split; [exact Hres|]. exact Hrej.
Qed.

Lemma insertRowsMySql_settles_witness :
  let rw := mkDbRow (js "2026-10-14T12:00:00.000Z") (js "1a Vara") (js "20/10/2026")
                    (js "0000001-00.2026.5.02.0001") None None None None in
  let resp := fun k => if Nat.eqb k 1 then None else Some (Some 1) in
  let (o, qs) := insertRowsMySql resp true [rw; rw; rw] 1 in
  o <> InsRunning /\
  (forall j, (S j < List.length qs)%nat -> resp j <> None) /\
  (o = InsRejected <-> qs <> [] /\ resp (List.length qs - 1)%nat = None).
Proof.
  intros rw resp. apply (insertRowsMySql_settles resp true [rw; rw; rw] 1). lia.
Defined.



(** ** [extrairDataBR] *)

(** X8: [extrairDataBR] returns either the empty string or a ten-unit
    [DD/MM/YYYY]-shaped string (two digits, a slash, two digits, a slash,
    four digits). *)
Theorem extrairDataBR_shape texto :
  extrairDataBR texto = [] \/ br_shape (extrairDataBR texto) = true.
Proof.
  unfold extrairDataBR. destruct (find_token false (trim texto)) as [m|] eqn:E; auto.
  right. eapply find_token_shape; eauto.
Qed.

(** X9: a [DD/MM/YYYY]-shaped date is what [extrairDataBR] returns when
    the text before it has no digit and does not end in a word character
    and the text after it is empty or starts with a non-word character
    (white space around the whole text included). *)
Theorem extrairDataBR_finds p x q :
  br_shape x = true -> Forall (fun c => is_digit c = false) p ->
  (forall c, hd_error (rev p) = Some c -> is_word c = false) ->
  (forall c, hd_error q = Some c -> is_word c = false) ->
  extrairDataBR (p ++ x ++ q) = x.
Proof.
  intros Hx Hp Hpl Hq.
  do 10 (destruct x as [|? x]; [discriminate|]). destruct x; [|discriminate].
  match goal with |- extrairDataBR (p ++ ?X ++ q) = _ => set (xx := X) end.
  unfold br_shape in Hx. apply andb_prop in Hx as [Hx Hb2]. apply andb_prop in Hx as [Hx Hb1].
  cbn [forallb] in Hx. repeat (apply andb_prop in Hx as [? Hx]).
  unfold extrairDataBR, trim.
  destruct (trim_start_app_nonws p (xx ++ q)) as (p1 & p2 & Hp12 & E1).
  { discriminate. }
  { intros c Hc. injection Hc; intros <-. apply digit_not_ws. auto. }
  rewrite E1. rewrite !rev_app_distr.
  destruct (trim_start_app_nonws (rev q) (rev xx ++ rev p2)) as (q1 & q2 & Hq12 & E2).
  { unfold xx; simpl; destruct (rev p2); discriminate. }
  { intros c Hc. unfold xx in Hc; simpl in Hc. injection Hc; intros <-.
    apply digit_not_ws. auto. }
  rewrite <- app_assoc, E2. rewrite !rev_app_distr, !rev_involutive, <- app_assoc.
  rewrite find_token_skip.
  2:{ rewrite Hp12 in Hp. apply Forall_app in Hp. apply Hp. }
  replace (match rev p2 with [] => false | c :: _ => is_word c end) with false.
  2:{ destruct (rev p2) as [|c r] eqn:Er; auto. symmetry. apply Hpl.
      rewrite Hp12, rev_app_distr, Er. reflexivity. }
  assert (Hrest : forall c, hd_error (rev q2) = Some c -> is_word c = false).
  { intros c Hc. apply Hq.
    assert (Eq : q = rev q2 ++ rev q1).
    { rewrite <- rev_app_distr, <- Hq12, rev_involutive. auto. }
    rewrite Eq. destruct (rev q2); [discriminate|exact Hc]. }
  unfold xx. cbn [app find_token negb andb].
  unfold token_at. cbn [forallb]. rewrite Hb1, Hb2.
  repeat match goal with H : is_digit ?d = true |- _ => rewrite H; clear H end.
  cbn [andb].
  destruct (rev q2) as [|c r]; [reflexivity|].
  rewrite (Hrest c eq_refl). reflexivity.
Qed.

Lemma extrairDataBR_finds_witness :
  extrairDataBR (js " Qua, " ++ js "15/10/2026" ++ js " >") = js "15/10/2026".
Proof.
  apply extrairDataBR_finds;
    [reflexivity | vm_compute; repeat constructor
    | intros c Hc; vm_compute in Hc; injection Hc; intros <-; reflexivity
    | intros c Hc; vm_compute in Hc; injection Hc; intros <-; reflexivity].
Defined.

(** ** [parseBRDate] / [brToIsoDateString] on a day past the month's end *)



(** ** [esperarPautaEstabilizar] *)

(** X11: [esperarPautaEstabilizar] reads at most 40 item counts: two
    pages whose first 40 count answers agree get the same outcome. *)
Theorem esperar_reads_at_most_40 c1 c2 :
  (forall j, (j < 40)%nat -> c1 j = c2 j) ->
  esperarPautaEstabilizar c1 = esperarPautaEstabilizar c2.
Proof. intros H. apply stab_loop_local. intros j Hj. apply H. lia. Qed.

Lemma esperar_reads_at_most_40_witness :
  esperarPautaEstabilizar (fun j => Z.of_nat j) =
  esperarPautaEstabilizar (fun j => if Nat.ltb j 40 then Z.of_nat j else 7).
Proof.
  apply esperar_reads_at_most_40. intros j Hj.
  apply Nat.ltb_lt in Hj. rewrite Hj. reflexivity.
Defined.

(** ** [extrairProcessosDaPauta] *)

(** X12: every field of every record [extrairProcessosDaPauta] returns has
    no white space at either end and no U+00A0 (no-break space). *)
Theorem extracted_fields_clean count items :
  Forall (fun p => Forall field_clean
            [numeroProcesso p; sessao p; juiz p; reclamante p; reclamada p])
         (extrairProcessosDaPauta count items).
Proof.
  unfold extrairProcessosDaPauta. destruct (Nat.eqb _ 0); [constructor|].
  apply Forall_map, Forall_forall. intros it _. unfold map_item. cbn [numeroProcesso sessao juiz reclamante reclamada].
  assert (Hp : Forall field_clean (filterBoolean (map normText (sel_desc it)))).
  { apply Forall_forall. intros a Ha. unfold filterBoolean in Ha.
    apply filter_In in Ha as [Ha _]. apply in_map_iff in Ha as (t & <- & _).
    apply normText_clean. }
  apply Forall_cons; [apply getText_clean|].
  apply Forall_cons.
  { apply join_clean; [repeat constructor; discriminate|].
    apply Forall_forall. intros a Ha. unfold filterBoolean in Ha.
    apply filter_In in Ha as [Ha Hne]. split; [destruct a; [discriminate|congruence]|].
    destruct Ha as [<- | [<- | []]]; apply getText_clean. }
  repeat (apply Forall_cons; [unfold parte; apply Forall_nth_default; [exact Hp|apply field_clean_nil]|]).
  apply Forall_nil.
Qed.

(** ** [main] of the first script *)

(** X13: when [main] of the first script writes its CSV, it has tried
    every [(vara, date)] pair, varas in listing order and target dates in
    order, and the file reads back as the header row followed, for each
    confirmed date, by one row per record extracted there:
    [geradoEm; vara; date; numeroProcesso; sessao; juiz; reclamante;
    reclamada]; skipped dates give no row. *)
Theorem main1_csv {W} abrir1 abrir2 listar selU selCal btn esp ext g hoje (w : W) text log :
  main1 W abrir1 abrir2 listar selU selCal btn esp ext g hoje w = Some (text, log) ->
  (exists w1 w2 varas w3, abrir1 w = Some w1 /\ abrir2 w1 = Some w2 /\
     listar w2 = Some (varas, w3) /\
     map visit_key log = list_prod varas (gerarDatasProximosDoisMeses hoje)) /\
  exists body, text = 65279 :: body /\ csv_read body = csv_headers :: flat_map (visit_cells g) log.
Proof.
  unfold main1. intros H.
  destruct (abrir1 w) as [w1|] eqn:A1; [|discriminate].
  destruct (abrir2 w1) as [w2|] eqn:A2; [|discriminate].
  destruct (listar w2) as [[varas w3]|] eqn:A3; [|discriminate].
  destruct (main1_varas _ _ _ _ _ _ _ _ _ _ _) as [[[r vs] w4]|] eqn:E; [|discriminate].
  injection H; intros <- <-.
  apply main1_varas_spec in E as [E1 E2]. simpl in E2. subst r.
  split; [exists w1, w2, varas, w3; auto|].
  destruct (writeCsv_readback csv_headers (flat_map (visit_rows g) vs) ltac:(discriminate))
    as [body [Hb Hr]].
  exists body. split; auto. rewrite Hr. f_equal.
  clear. induction vs as [|v vs IH]; cbn [flat_map]; auto.
  rewrite map_app, IH. f_equal. destruct v; cbn [visit_rows visit_cells]; auto.
  rewrite map_map. apply map_ext. intros p. apply mk_csv_row_cells.
Qed.

Lemma main1_csv_witness :
  let selCal := fun (d : jsstr) (_ : jsstr) => Some (true, d) in
  let btn := fun (w : jsstr) => Some w in
  let ext := fun (_ : jsstr) =>
    Some (Some 1%nat, [mkItem (Some (js "09:00")) None (Some (js "0001")) [js "A"; js "B"]]) in
  exists text log,
    main1 jsstr Some Some (fun w => Some ([js "1a VT"], w)) (fun _ w => Some w) selCal btn
      Some ext (js "2026-10-14T12:00:00Z") (mkDate 2026 10 14) [] = Some (text, log) /\
    exists body, text = 65279 :: body /\
      csv_read body = csv_headers :: flat_map (visit_cells (js "2026-10-14T12:00:00Z")) log.
Proof.
  intros selCal btn ext. eexists; eexists. split.
  - vm_compute. reflexivity.
  - apply (main1_csv (W := jsstr) Some Some (fun w => Some ([js "1a VT"], w)) (fun _ w => Some w)
             selCal btn Some ext (js "2026-10-14T12:00:00Z") (mkDate 2026 10 14) []).
    vm_compute. reflexivity.
Defined.

(** ** [writeXlsx] *)

(** X14: [writeXlsx] gives each of the [headers.length] columns a width
    between 12 and 60, at least two more than the length of the header and
    of every cell of that column whenever that does not exceed 60. *)
Theorem writeXlsx_widths_fit headers rows :
  List.length (writeXlsx_widths headers rows) = List.length headers /\
  Forall (fun w => 12 <= w <= 60) (writeXlsx_widths headers rows) /\
  forall i h, nth_error headers i = Some h ->
    forall s, In s (h :: map (fun r => cell_value (row_get r h)) rows) ->
      Z.of_nat (List.length s) + 2 <= 60 ->
      Z.of_nat (List.length s) + 2 <= nth i (writeXlsx_widths headers rows) 0.
Proof.
  unfold writeXlsx_widths. split; [rewrite length_map, length_seq; auto|]. split.
  - apply Forall_map, Forall_forall. intros c _. unfold xlsx_column_width. lia.
  - intros i h Hi s Hs Hle.
    assert (Hlt : (i < List.length headers)%nat) by (apply nth_error_Some; congruence).
    rewrite nth_map_seq1 by auto. unfold xlsx_column_width.
    replace (S i - 1)%nat with i by lia. rewrite (nth_error_nth headers i [] Hi).
    destruct (xlsx_maxLen_ge h rows (Z.of_nat (List.length h))) as [H1 H2].
    destruct Hs as [<- | Hs]; [lia|].
    apply in_map_iff in Hs as (r & <- & Hr). specialize (H2 r Hr). lia.
Qed.

(** ** [sendEmailWithAttachment] *)

(** X15: [sendEmailWithAttachment] gets past its configuration check
    exactly when [SMTP_HOST], [SMTP_USER] and [SMTP_PASS] are set and
    non-empty and [MAIL_TO] yields at least one address; [MAIL_FROM] never
    makes it fail, since it falls back to [SMTP_USER]. *)
Theorem sendEmail_config_ok env :
  ((exists cfg, sendEmail_config env = Ok cfg) <->
   truthy (env (js "SMTP_HOST")) && truthy (env (js "SMTP_USER")) && truthy (env (js "SMTP_PASS"))
   && negb (Nat.eqb (List.length (parseMailTo (opt_str (env (js "MAIL_TO"))))) 0) = true) /\
  (forall cfg, sendEmail_config env = Ok cfg ->
     smtp_from cfg = (if truthy (env (js "MAIL_FROM")) then opt_str (env (js "MAIL_FROM"))
                      else smtp_user cfg) /\
     smtp_to cfg = parseMailTo (opt_str (env (js "MAIL_TO")))).
Proof.
  assert (Hto : parseMailTo (opt_str (getEnv env (js "MAIL_TO") (Some []))) =
                parseMailTo (opt_str (env (js "MAIL_TO")))).
  { rewrite opt_str_getEnv. destruct (env (js "MAIL_TO")) as [[|c v]|]; reflexivity. }
  unfold sendEmail_config. cbv zeta. rewrite Hto.
  rewrite !truthy_getEnv, opt_str_getEnv.
  destruct (truthy (env (js "SMTP_HOST"))), (truthy (env (js "SMTP_USER"))) eqn:Eu,
           (truthy (env (js "SMTP_PASS"))), (truthy (env (js "MAIL_FROM"))) eqn:Ef,
           (Nat.eqb (List.length (parseMailTo (opt_str (env (js "MAIL_TO"))))) 0);
    cbn [orb negb andb truthy].
  all: split; [split; [intros [cfg H]; first [discriminate H | reflexivity]
                      |intros H; first [discriminate H | eexists; reflexivity]]|].
  all: intros cfg H; try discriminate H; injection H; intros <-; cbn [smtp_from smtp_user smtp_to].
  all: split; auto; rewrite opt_str_getEnv, Ef; reflexivity.
Qed.

(** ** [lerTextoDataExibida] *)

(** X16: [lerTextoDataExibida] always returns text with no white space at
    either end; and a button [innerText] that is non-empty but blank hides
    every later source of [readIonButtonTextByXpath], which then returns
    the empty string. *)
Theorem lerTexto_trimmed r inner :
  trimmed (lerTextoDataExibida r inner) /\
  (forall n s, btn_innerText n = Some s -> s <> [] -> trim s = [] ->
     readIonButtonTextByXpath (Some (Some n)) = []).
Proof.
  split.
  - unfold lerTextoDataExibida. destruct (negb (is_empty (readIonButtonTextByXpath r))).
    + unfold readIonButtonTextByXpath. destruct r as [[n|]|]; [apply trimmed_trim|apply trimmed_nil|apply trimmed_nil].
    + destruct inner as [t|]; [|apply trimmed_nil].
      destruct (negb (is_empty t) && negb (is_empty (trim t))); [apply trimmed_trim|apply trimmed_nil].
  - intros n s Hb Hne Ht. unfold readIonButtonTextByXpath. cbn [or_chain]. rewrite Hb.
    destruct s as [|c s]; [congruence|]. exact Ht.
Qed.
